(** * simmer: processes, arrivals and orders ([src/process.h])

  A shallow embedding of the process core of the simulation kernel.
  C++ [int] values are integers ([Z]); the [Order] setters only compare
  and copy them, so no wrap-around arises there.  [double] timestamps and
  durations are idealised as exact rationals ([Q]).  The unordered maps
  ([UMAP]) are finite maps ([gmap]); [operator[]] on them is
  [umap_index], which inserts a value-initialised entry on a miss. *)

From Stdlib Require Import ZArith QArith Qminmax Lqa.
From stdpp Require Import gmap strings list fin_maps.

#[local] Set Warnings "-clear-no-such-hyp".

Local Open Scope Z_scope.

(** ** [Order]: priority, preemptible, restart *)

Module Order.

(** The two messages passed to [Rcpp::warning]; the second one carries
    the value printed for [%d]. *)
Inductive warning :=
| priority_below_zero
| preemptible_below_priority (set_to : Z).

Record t := mk {
  priority : Z;       (* arrival priority *)
  preemptible : Z;    (* maximum priority that cannot cause preemption *)
  restart : bool      (* whether activity must be restarted after preemption *)
}.

(** A setter returns the updated object and the warnings it raised. *)
Definition warned (A : Type) : Type := (A * list warning)%type.

Definition ret {A} (a : A) : warned A := (a, []).

Definition bind {A B} (m : warned A) (k : A -> warned B) : warned B :=
  let (a, w1) := m in
  let (b, w2) := k a in
  (b, w1 ++ w2).

Notation "'let!' x ':=' m 'in' k" := (bind m (fun x => k))
  (at level 10, x name, m at level 100, k at level 200).

Definition set_priority (value : Z) (o : t) : warned t :=
  let (value, w) :=
    if value <? 0 then (0, [priority_below_zero]) else (value, []) in
  let o := mk value (preemptible o) (restart o) in
  let o :=
    if preemptible o <? priority o
    then mk (priority o) (priority o) (restart o)
    else o in
  (o, w).

Definition get_priority (o : t) : Z := priority o.

Definition set_preemptible (value : Z) (o : t) : warned t :=
  let (value, w) :=
    if value <? priority o
    then (priority o, [preemptible_below_priority (priority o)])
    else (value, []) in
  (mk (priority o) value (restart o), w).

Definition get_preemptible (o : t) : Z := preemptible o.

Definition set_restart (value : bool) (o : t) : warned t :=
  (mk (priority o) (preemptible o) value, []).

Definition get_restart (o : t) : bool := restart o.

(** The constructor runs the three setters on the object as allocated:
    [priority], [preemptible] and [restart] have no initialiser, so the
    first setter sees whatever the storage held ([raw]). *)
Definition Order (raw : t) (priority preemptible : Z) (restart : bool)
  : warned t :=
  let! o := set_priority priority raw in
  let! o := set_preemptible preemptible o in
  set_restart restart o.

(** [Order()] with the default arguments of the declaration. *)
Definition Order_default (raw : t) : warned t := Order raw 0 0 false.

(** The mutators a client can call on a constructed [Order]. *)
Inductive call :=
| call_set_priority (value : Z)
| call_set_preemptible (value : Z)
| call_set_restart (value : bool).

Definition perform (c : call) (o : t) : warned t :=
  match c with
  | call_set_priority v => set_priority v o
  | call_set_preemptible v => set_preemptible v o
  | call_set_restart b => set_restart b o
  end.

Fixpoint perform_all (cs : list call) (o : t) : warned t :=
  match cs with
  | [] => ret o
  | c :: cs => let! o := perform c o in perform_all cs o
  end.

(** The documented invariant of the policy triple. *)
Definition valid (o : t) : Prop := 0 <= priority o <= preemptible o.

(** What the [int] type can hold. *)
Definition INT_MIN : Z := - 2 ^ 31.
Definition INT_MAX : Z := 2 ^ 31 - 1.
Definition is_int (z : Z) : Prop := INT_MIN <= z <= INT_MAX.

End Order.

(** ** Memory: pointers and the heap of [int] cells *)

Definition loc := positive.

(** A pointer to an object owned elsewhere ([Simulator*], [Activity*],
    [Resource*]); [None] is the null pointer. *)
Definition ptr := option loc.
Definition nullptr : ptr := None.

(** Two's complement wrap-around of an [int] result. *)
Definition wrap_int (z : Z) : Z := (z + 2 ^ 31) mod 2 ^ 32 - 2 ^ 31.

Module Heap.

(** The live [int] cells made by [new int(v)], and the addresses that
    were passed to [delete], most recent first. *)
Record t := mk {
  cells : gmap loc Z;
  deleted : list loc
}.

Definition empty : t := mk ∅ [].

(** [new int(v)]: a cell at an address that is not live. *)
Definition new_int (v : Z) (h : t) : loc * t :=
  let l := fresh (dom (cells h)) in
  (l, mk (<[l := v]> (cells h)) (deleted h)).

(** [*p] for reading; [None] when [p] is not live. *)
Definition load (p : loc) (h : t) : option Z := cells h !! p.

(** [*p = v]. *)
Definition store (p : loc) (v : Z) (h : t) : t :=
  mk (<[p := v]> (cells h)) (deleted h).

(** [delete p]. *)
Definition delete_int (p : loc) (h : t) : t :=
  mk (delete p (cells h)) (p :: deleted h).

End Heap.

(** ** Unordered maps *)

(** [m[k]] of [std::unordered_map]: the mapped value, and the map, which
    gains a value-initialised entry ([dflt]) when [k] was not a key. *)
Definition umap_index `{Countable K} {V} (dflt : V) (k : K) (m : gmap K V)
  : V * gmap K V :=
  match m !! k with
  | Some v => (v, m)
  | None => (dflt, <[k := dflt]> m)
  end.

(** ** [Arrival::ArrTime] *)

Module ArrTime.

Record t := mk {
  start : Q;
  activity : Q;
  busy_until : Q;
  remaining : Q
}.

(** [ArrTime(): start(-1), activity(0), busy_until(-1), remaining(0)] *)
Definition ArrTime : t := mk (-1 # 1) 0 (-1 # 1) 0.

Definition with_start (v : Q) (x : t) : t :=
  mk v (activity x) (busy_until x) (remaining x).
Definition with_activity (v : Q) (x : t) : t :=
  mk (start x) v (busy_until x) (remaining x).

End ArrTime.

(** ** [Entity] and [Process] *)

Module Entity.

(** Modelled from the spec: [Entity] is declared in [entity.h], outside
    [process.h].  The spec gives it "identity + monitoring flag + owning
    simulator handle"; the constructor [Entity(sim, name, mon)] stores
    its three arguments. *)
Record t := mk {
  sim : ptr;
  name : string;
  mon : Z
}.

Definition Entity (sim : ptr) (name : string) (mon : Z) : t :=
  mk sim name mon.

Definition is_monitored (e : t) : bool := negb (mon e =? 0).

End Entity.

(** [Process(sim, name, mon): Entity(sim, name, mon) {}] *)
Definition Process (sim : ptr) (name : string) (mon : Z) : Entity.t :=
  Entity.Entity sim name mon.

(** Conversion of a [bool] argument to an [int] parameter. *)
Definition int_of_bool (b : bool) : Z := if b then 1 else 0.

(** ** [Arrival] *)

Module Arrival.

Record t := mk {
  base : Entity.t;
  clones : loc;                   (* int* clones, shared by the clones *)
  order : Order.t;                (* priority, preemptible, restart *)
  lifetime : ArrTime.t;           (* time spent in the whole trajectory *)
  restime : gmap string ArrTime.t; (* time spent in resources *)
  activity : ptr;                 (* current activity *)
  attributes : gmap string Q;     (* user-defined (key, value) pairs *)
  selected : gmap Z ptr           (* selected resource *)
}.

Definition with_restime (m : gmap string ArrTime.t) (a : t) : t :=
  mk (base a) (clones a) (order a) (lifetime a) m (activity a)
     (attributes a) (selected a).
Definition with_activity (p : ptr) (a : t) : t :=
  mk (base a) (clones a) (order a) (lifetime a) (restime a) p
     (attributes a) (selected a).
Definition with_attributes (m : gmap string Q) (a : t) : t :=
  mk (base a) (clones a) (order a) (lifetime a) (restime a) (activity a)
     m (selected a).
Definition with_selected (m : gmap Z ptr) (a : t) : t :=
  mk (base a) (clones a) (order a) (lifetime a) (restime a) (activity a)
     (attributes a) m.

(** [Arrival(sim, name, mon, order, first_activity)]: the base is
    built, [clones] points to a new counter holding 1, the order and
    the first activity are copied, the other members are
    default-constructed. *)
Definition Arrival (sim : ptr) (name : string) (mon : Z) (order : Order.t)
    (first_activity : ptr) (h : Heap.t) : t * Heap.t :=
  let (c, h) := Heap.new_int 1 h in
  (mk (Process sim name mon) c order ArrTime.ArrTime ∅ first_activity ∅ ∅,
   h).

(** [~Arrival() { if (!--( *clones)) delete clones; }]
    [None] when [clones] dangles. *)
Definition destroy (a : t) (h : Heap.t) : option Heap.t :=
  v ← Heap.load (clones a) h;
  let v := wrap_int (v - 1) in
  let h := Heap.store (clones a) v h in
  Some (if v =? 0 then Heap.delete_int (clones a) h else h).

(** Modelled from the spec: [clone()] comes from the [CLONEABLE_COUNT]
    macro, which is defined outside [process.h].  The spec has the
    clones share one clone-count cell that counts the instances: cloning
    adds one to the shared counter and copies the object, pointer
    included. *)
Definition clone (a : t) (h : Heap.t) : option (t * Heap.t) :=
  v ← Heap.load (clones a) h;
  Some (a, Heap.store (clones a) (wrap_int (v + 1)) h).

Definition get_attributes (a : t) : gmap string Q := attributes a.

Definition get_remaining (a : t) : Q := ArrTime.remaining (lifetime a).

(** [restime[name].start = value] *)
Definition set_start (name : string) (value : Q) (a : t) : t :=
  let (x, m) := umap_index ArrTime.ArrTime name (restime a) in
  with_restime (<[name := ArrTime.with_start value x]> m) a.

(** [set_activity(Activity* ptr)] *)
Definition set_activity_ptr (p : ptr) (a : t) : t := with_activity p a.

(** [set_activity(std::string name, double value)]:
    [restime[name].activity = value] *)
Definition set_activity (name : string) (value : Q) (a : t) : t :=
  let (x, m) := umap_index ArrTime.ArrTime name (restime a) in
  with_restime (<[name := ArrTime.with_activity value x]> m) a.

(** [return restime[name].activity] *)
Definition get_activity (name : string) (a : t) : Q * t :=
  let (x, m) := umap_index ArrTime.ArrTime name (restime a) in
  (ArrTime.activity x, with_restime m a).

(** [selected[id] = res] *)
Definition set_selected (id : Z) (res : ptr) (a : t) : t :=
  let (_, m) := umap_index nullptr id (selected a) in
  with_selected (<[id := res]> m) a.

(** [return selected[id]] *)
Definition get_selected (id : Z) (a : t) : ptr * t :=
  let (x, m) := umap_index nullptr id (selected a) in
  (x, with_selected m a).

(** The outcome reported by [set_attribute]. *)
Inductive attribute_status := created | updated.

(** Modelled from the spec: [set_attribute] is only declared in the
    header.  The spec: "inserts or overwrites [attributes[key]]; returns
    a status distinguishing created vs updated; never fails". *)
Definition set_attribute (key : string) (value : Q) (a : t)
  : attribute_status * t :=
  (match attributes a !! key with Some _ => updated | None => created end,
   with_attributes (<[key := value]> (attributes a)) a).

(** Modelled from the spec: reading an attribute is done by the
    trajectory layer through [get_attributes]; the spec requires that a
    key never set reads as 0. *)
Definition get_attribute (key : string) (a : t) : Q :=
  default 0%Q (get_attributes a !! key).

(** The calls of the header that a client can make on an arrival,
    results dropped. *)
Inductive call :=
| call_set_start (name : string) (value : Q)
| call_set_activity (name : string) (value : Q)
| call_get_activity (name : string)
| call_set_activity_ptr (p : ptr)
| call_set_selected (id : Z) (res : ptr)
| call_get_selected (id : Z)
| call_get_attributes
| call_get_remaining.

Definition perform (c : call) (a : t) : t :=
  match c with
  | call_set_start n v => set_start n v a
  | call_set_activity n v => set_activity n v a
  | call_get_activity n => (get_activity n a).2
  | call_set_activity_ptr p => set_activity_ptr p a
  | call_set_selected id res => set_selected id res a
  | call_get_selected id => (get_selected id a).2
  | call_get_attributes => a
  | call_get_remaining => a
  end.

Definition perform_all (cs : list call) (a : t) : t :=
  foldl (λ a c, perform c a) a cs.

(** The resource whose time accounting a call records: the arrival's
    visits to resources. *)
Definition visit (c : call) : option string :=
  match c with
  | call_set_start n _ | call_set_activity n _ => Some n
  | _ => None
  end.

(** The resource name with which a call indexes [restime]. *)
Definition indexed (c : call) : option string :=
  match c with
  | call_set_start n _ | call_set_activity n _ | call_get_activity n => Some n
  | _ => None
  end.

(** Cloning several times: each element of [picks] chooses which of the
    instances made so far is cloned next (counted cyclically). *)
Fixpoint clone_from (picks : list nat) (insts : list t) (h : Heap.t)
  : option (list t * Heap.t) :=
  match picks with
  | [] => Some (insts, h)
  | i :: picks =>
      a ← insts !! (i `mod` length insts)%nat;
      r ← clone a h;
      clone_from picks (insts ++ [r.1]) r.2
  end.

(** All the instances of [insts] point to the counter at [c]. *)
Definition shares (c : loc) (insts : list t) : Prop :=
  Forall (λ a, clones a = c) insts.

(** Destroying instances one after the other. *)
Fixpoint destroy_all (insts : list t) (h : Heap.t) : option Heap.t :=
  match insts with
  | [] => Some h
  | a :: insts => h ← destroy a h; destroy_all insts h
  end.

(** A freshly constructed arrival, for examples. *)
Definition arrival0 : t :=
  (Arrival None "arrival0" 1 (Order.mk 0 0 false) None Heap.empty).1.

End Arrival.

(** ** [Batched] *)

Module Batched.

Record t := mk {
  arrival : Arrival.t;            (* the [Arrival] base *)
  arrivals : list Arrival.t;
  permanent : bool
}.

(** [Batched(sim, name, batcher, permanent):
      Arrival(sim, name, true, Order(), batcher), permanent(permanent) {}]
    [raw] is the storage in which the temporary [Order()] is built. *)
Definition Batched (raw : Order.t) (sim : ptr) (name : string) (batcher : ptr)
    (permanent : bool) (h : Heap.t) : Order.warned (t * Heap.t) :=
  let (o, w) := Order.Order_default raw in
  let (a, h) := Arrival.Arrival sim name (int_of_bool true) o batcher h in
  ((mk a [] permanent, h), w).

Definition is_permanent (b : t) : bool := permanent b.

End Batched.

(** ** Giving up a resource *)

Module Leave.
Import Arrival.

(** Modelled from the spec: the full original service requirement of
    a time span.  In the spec's TimeSpan, [start] is when the service in
    progress began and [busy_until] is the "absolute time current
    service would finish absent preemption"; the service so requires, in
    full, the time between the two, which is also the time already
    spent in it plus the time left of it at any moment of the
    service. *)
Definition service_requirement (x : ArrTime.t) : Q :=
  (ArrTime.busy_until x - ArrTime.start x)%Q.

(** Modelled from the spec: [Arrival::leave] is only declared in the
    header.  The spec: "Computes [remaining = max(0, busy_until − now)]
    for that resource's TimeSpan when the order disallows restart; when
    [order.restart] is true, discards the partial progress instead
    ([remaining] reset to the full original service requirement).
    Updates [activity_time] with elapsed time since [start]."
    [activity_time] is cumulative, so the elapsed time is added to it. *)
Definition leave_timespan (restart : bool) (now : Q) (x : ArrTime.t)
  : ArrTime.t :=
  ArrTime.mk
    (ArrTime.start x)
    (ArrTime.activity x + (now - ArrTime.start x))
    (ArrTime.busy_until x)
    (if restart then service_requirement x
     else Qmax 0 (ArrTime.busy_until x - now)).

(** [now] is the simulator's clock; the time span is [restime[resource]]
    as the header's accessors index it. *)
Definition leave (resource : string) (now : Q) (a : t) : t :=
  let (x, m) := umap_index ArrTime.ArrTime resource (restime a) in
  with_restime
    (<[resource := leave_timespan (Order.get_restart (order a)) now x]> m) a.

(** An arrival whose order restarts, for examples. *)
Definition restarting0 : t :=
  (Arrival None "restarting0" 1 (Order.mk 0 0 true) None Heap.empty).1.

End Leave.

(** ** The scheduler *)

Module Simulator.

(** The processes that the models below hand to the scheduler. *)
Inductive process :=
| proc_generator
| proc_arrival (a : Arrival.t).

(** Modelled from the spec: the [Simulator] is an external collaborator
    of which the spec requires [schedule(process, delay)] and [now()]:
    a clock and the pending firings with their absolute times, in the
    order in which they were scheduled. *)
Record t := mk {
  now : Q;
  events : list (Q * process)
}.

Definition schedule (delay : Q) (p : process) (s : t) : t :=
  mk (now s) (events s ++ [((now s + delay)%Q, p)]).

(** The arrivals handed to the scheduler, with their firing times. *)
Definition scheduled_arrivals (s : t) : list (Q * Arrival.t) :=
  omap (λ e, match e.2 with
             | proc_arrival a => Some (e.1, a)
             | proc_generator => None
             end) (events s).

(** The earliest-scheduled pending firing of the generator, and the
    other events. *)
Fixpoint next_firing (evs : list (Q * process))
  : option (Q * list (Q * process)) :=
  match evs with
  | [] => None
  | (t, proc_generator) :: evs => Some (t, evs)
  | e :: evs =>
      match next_firing evs with
      | Some (t, rest) => Some (t, e :: rest)
      | None => None
      end
  end.

End Simulator.

(** ** [Generator] *)

Module Generator.

(** What the distribution provider can answer: a finite number, or a
    value that is not finite (an infinity or a NaN). *)
Inductive duration :=
| finite (d : Q)
| not_finite.

(** The external provider ([Rcpp::Function dist]): its answers in the
    order of the calls, and how many calls were made. *)
Record provider := mk_provider {
  answers : nat -> duration;
  asked : nat
}.

Definition next (p : provider) : duration * provider :=
  (answers p (asked p), mk_provider (answers p) (S (asked p))).

Definition provider_of_list (l : list duration) : provider :=
  mk_provider (λ i, nth i l not_finite) 0.

Record t := mk {
  base : Entity.t;
  count : Z;                (* number of arrivals generated *)
  first_activity : ptr;
  dist : provider;
  order : Order.t
}.

(** [Generator(sim, name_prefix, mon, first_activity, dist, order)] *)
Definition Generator (sim : ptr) (name_prefix : string) (mon : Z)
    (first_activity : ptr) (dist : provider) (order : Order.t) : t :=
  mk (Process sim name_prefix mon) 0 first_activity dist order.

Definition get_n_generated (g : t) : Z := count g.

(** [reset()]: the counter returns to 0 and the provider is reset
    through its own [reset] function. *)
Definition reset (g : t) : t :=
  mk (base g) 0 (first_activity g) (mk_provider (answers (dist g)) 0)
     (order g).

Definition with_dist (p : provider) (g : t) : t :=
  mk (base g) (count g) (first_activity g) p (order g).

(** The termination signal: a duration that is not finite or negative. *)
Definition is_stop (d : duration) : bool :=
  match d with
  | finite q => negb (Qle_bool 0 q)
  | not_finite => true
  end.

(** Modelled from the spec: [Generator::run] is only declared in the
    header.  The spec: "requests the next inter-arrival duration from the
    external distribution provider.  A non-finite or negative duration is
    the termination signal: the generator stops re-scheduling itself.
    Otherwise: schedules its own next firing [duration] time units ahead,
    constructs a new Arrival with the generator's Order and starting
    Activity, increments the generated-count, and activates the new
    Arrival" (activation hands it to the scheduler at offset zero). *)
Definition run (g : t) (s : Simulator.t) (h : Heap.t)
  : t * Simulator.t * Heap.t :=
  let (d, p) := next (dist g) in
  match d with
  | finite q =>
      if Qle_bool 0 q then
        let s := Simulator.schedule q Simulator.proc_generator s in
        let (a, h) :=
          Arrival.Arrival (Entity.sim (base g)) (Entity.name (base g))
            (Entity.mon (base g)) (order g) (first_activity g) h in
        let g :=
          mk (base g) (wrap_int (count g + 1)) (first_activity g) p
             (order g) in
        (g, Simulator.schedule 0 (Simulator.proc_arrival a) s, h)
      else (with_dist p g, s, h)
  | not_finite => (with_dist p g, s, h)
  end.

(** The scheduler's part: the clock moves to the generator's pending
    firing, if there is one, and the generator runs. *)
Definition fire (w : t * Simulator.t * Heap.t)
  : option (t * Simulator.t * Heap.t) :=
  let '(g, s, h) := w in
  match Simulator.next_firing (Simulator.events s) with
  | Some (t, rest) => Some (run g (Simulator.mk t rest) h)
  | None => None
  end.

Fixpoint drive (firings : nat) (w : t * Simulator.t * Heap.t)
  : t * Simulator.t * Heap.t :=
  match firings with
  | O => w
  | S n => match fire w with Some w' => drive n w' | None => w end
  end.

(** A generator that has just been handed to the scheduler at time 0. *)
Definition started (g : t) : t * Simulator.t * Heap.t :=
  (g, Simulator.schedule 0 Simulator.proc_generator (Simulator.mk 0 []),
   Heap.empty).

(** The state of a generator that has fired [j] times without meeting a
    termination signal: [j] arrivals made and handed over, one firing of
    the generator pending. *)
Definition running (g0 : t) (j : nat) (w : t * Simulator.t * Heap.t) : Prop :=
  count w.1.1 = Z.of_nat j /\
  asked (dist w.1.1) = j /\
  answers (dist w.1.1) = answers (dist g0) /\
  length (Simulator.scheduled_arrivals w.1.2) = j /\
  exists t rest,
    Simulator.next_firing (Simulator.events w.1.2) = Some (t, rest) /\
    Simulator.next_firing rest = None.

(** A generator whose provider answers 2, 3 and then -1. *)
Definition generator_2_3_stop : t :=
  Generator None "gen" 1 (Some 1%positive)
    (provider_of_list [finite 2; finite 3; finite (-1 # 1)])
    (Order.mk 0 0 false).

End Generator.

(** ** [Manager] *)

Module Manager.

Record t := mk {
  base : Entity.t;
  param : string;
  duration : list Q;
  value : list Z;
  period : Z;
  index : nat               (* [unsigned int]; it never exceeds the size *)
}.

(** [Manager(sim, name, param, duration, value, period, set)]; the
    setter is external and appears as the log of its calls below. *)
Definition Manager (sim : ptr) (name param : string) (duration : list Q)
    (value : list Z) (period : Z) : t :=
  mk (Process sim name (int_of_bool false)) param duration value period 0.

Definition with_index (i : nat) (m : t) : t :=
  mk (base m) (param m) (duration m) (value m) (period m) i.

(** [reset() { index = 0; }] *)
Definition reset (m : t) : t := with_index 0 m.

(** A manager in its surroundings: the clock, the calls made to the
    setter (time and value, oldest first) and whether the manager has
    stopped firing. *)
Record world := mk_world {
  manager : t;
  now : Q;
  applied : list (Q * Z);
  dormant : bool
}.

(** Modelled from the spec: [Manager::run] is only declared in the
    header.  The spec: "at step [index], waits [duration[index]], then
    invokes the external setter with [value[index]], advances [index].
    If [index] reaches the end of the sequence: when [period > 0], wrap
    [index] back to 0 and continue; when [period ≤ 0], stop (the process
    becomes dormant, no further firings)."  With nothing at [index] the
    manager has nothing to replay and goes dormant. *)
Definition run (w : world) : world :=
  let m := manager w in
  match duration m !! index m, value m !! index m with
  | Some d, Some v =>
      let t := (now w + d)%Q in
      let log := applied w ++ [(t, v)] in
      let i := S (index m) in
      if decide (i = length (duration m)) then
        if 0 <? period m
        then mk_world (with_index 0 m) t log false
        else mk_world (with_index i m) t log true
      else mk_world (with_index i m) t log false
  | _, _ => mk_world m (now w) (applied w) true
  end.

(** The scheduler's part: a manager that is not dormant fires again. *)
Fixpoint drive (firings : nat) (w : world) : world :=
  match firings with
  | O => w
  | S n => if dormant w then w else drive n (run w)
  end.

Definition started (m : t) : world := mk_world m 0 [] false.

(** The time of the firing number [k] (from 1) of a schedule replayed
    cyclically: the durations added up in the order of the firings. *)
Fixpoint clock (ds : list Q) (k : nat) : Q :=
  match k with
  | O => 0
  | S j => (clock ds j + nth (j `mod` length ds) ds 0)%Q
  end.

(** The first [k] firings of a schedule replayed cyclically. *)
Definition replay (ds : list Q) (vs : list Z) (k : nat) : list (Q * Z) :=
  map (λ j, (clock ds (S j), nth (j `mod` length vs) vs 0)) (seq 0 k).

(** The schedule of the example: 1 then 2 time units, values 10 and 20. *)
Definition manager_10_20 (period : Z) : t :=
  Manager None "manager" "capacity" [1; 2]%Q [10; 20] period.

End Manager.

(** ** Terminating a [Batched] *)

Module Terminate.
Import Arrival.

(** What the monitoring sink receives for a terminated arrival. *)
Record terminal_record := mk_record {
  rec_name : string;
  rec_start : Q;
  rec_end : Q;
  rec_activity : Q;
  rec_finished : bool;
  rec_attributes : gmap string Q
}.

(** The surroundings: the scheduler, and the monitoring sink with the
    arrivals finalized so far, each with its terminal record. *)
Record world := mk_world {
  sim : Simulator.t;
  monitor : list (Arrival.t * terminal_record)
}.

(** Modelled from the spec: the record of [Arrival::terminate], "name,
    lifetime span, attribute snapshot", closed at the current time. *)
Definition terminal (finished : bool) (now : Q) (a : Arrival.t)
  : terminal_record :=
  mk_record (Entity.name (base a)) (ArrTime.start (lifetime a)) now
    (ArrTime.activity (lifetime a)) finished (attributes a).

(** Handing a member back to the scheduler, at offset zero. *)
Definition release (s : Simulator.t) (a : Arrival.t) : Simulator.t :=
  Simulator.schedule 0 (Simulator.proc_arrival a) s.

(** Modelled from the spec: [Batched::terminate] is only declared in the
    header.  The spec: "if [permanent == false], members are released
    back to independent scheduling (each resumes its own trajectory
    position) instead of being finalized with the batch; if
    [permanent == true], the batch finalizes as a single unit and all
    members are finalized together, sharing the batch's terminal
    record." *)
Definition terminate (finished : bool) (b : Batched.t) (w : world) : world :=
  let r := terminal finished (Simulator.now (sim w)) (Batched.arrival b) in
  if Batched.is_permanent b then
    mk_world (sim w)
      (monitor w ++
       (Batched.arrival b, r) :: map (λ a, (a, r)) (Batched.arrivals b))
  else
    mk_world (foldl release (sim w) (Batched.arrivals b))
      (monitor w ++ [(Batched.arrival b, r)]).

(** A batch of three arrivals that differ in an attribute. *)
Definition batch_of_three (permanent : bool) : Batched.t :=
  Batched.mk arrival0
    (map (λ v, (set_attribute "id" v arrival0).2) [1; 2; 3]%Q)
    permanent.

End Terminate.

(** ** Copying and destroying a [Batched] *)

Module BatchedLife.
Import Arrival.

(** The loop of the copy constructor:
    [arrivals[i] = arrivals[i]->clone()] for [i] from 0 on, the members
    being plain arrivals. *)
Fixpoint clone_members (members : list Arrival.t) (h : Heap.t)
  : option (list Arrival.t * Heap.t) :=
  match members with
  | [] => Some ([], h)
  | a :: members =>
      r ← clone a h;
      r' ← clone_members members r.2;
      Some (r.1 :: r'.1, r'.2)
  end.

(** [Batched(const Batched& o): Arrival(o), arrivals(o.arrivals),
      permanent(o.permanent)], then the loop.  [Arrival(o)] is the
    implicit copy of the base: its members are copied, the [clones]
    pointer among them. *)
Definition Batched_copy (o : Batched.t) (h : Heap.t)
  : option (Batched.t * Heap.t) :=
  r ← clone_members (Batched.arrivals o) h;
  Some (Batched.mk (Batched.arrival o) r.1 (Batched.permanent o), r.2).

(** [~Batched()]: every member is deleted, in order, and the vector is
    cleared; then the base is destroyed by [~Arrival()]. *)
Definition destroy (b : Batched.t) (h : Heap.t) : option Heap.t :=
  h ← destroy_all (Batched.arrivals b) h;
  Arrival.destroy (Batched.arrival b) h.

End BatchedLife.

(** ** Notions used to state results *)

Module Notions.

(** The setters other than [set_preemptible]. *)
Definition keeps_ceiling (c : Order.call) : bool :=
  match c with
  | Order.call_set_preemptible _ => false
  | _ => true
  end.

(** The argument of a call is an [int]. *)
Definition call_is_int (c : Order.call) : Prop :=
  match c with
  | Order.call_set_priority v | Order.call_set_preemptible v =>
      Order.is_int v
  | Order.call_set_restart _ => True
  end.

(** [a'] is [a] after some accessor calls. *)
Definition accessed (a a' : Arrival.t) : Prop :=
  exists cs, a' = Arrival.perform_all cs a.

(** How many arrivals of [l] point to the counter at [c]. *)
Fixpoint occ (l : list Arrival.t) (c : loc) : Z :=
  match l with
  | [] => 0
  | a :: l => (if decide (Arrival.clones a = c) then 1 else 0) + occ l c
  end.

(** [h'] is [h] with every live counter [c] raised by [off c]. *)
Definition lifted (off : loc -> Z) (h h' : Heap.t) : Prop :=
  Heap.deleted h' = Heap.deleted h /\
  forall c, Heap.cells h' !! c = (λ v, v + off c) <$> Heap.cells h !! c.

(** A batch made of three arrivals constructed one after the other,
    the first one being its base, and the heap they were made in. *)
Definition batch_of_owners : Batched.t * Heap.t :=
  let o := Order.mk 0 0 false in
  let r0 := Arrival.Arrival None "batch" 1 o None Heap.empty in
  let r1 := Arrival.Arrival None "first" 1 o None r0.2 in
  let r2 := Arrival.Arrival None "second" 1 o None r1.2 in
  (Batched.mk r0.1 [r1.1; r2.1] false, r2.2).

End Notions.

(** ** Results about [Order] *)

Module OrderFacts.
Import Order.

Ltac order_cases :=
  repeat match goal with
  | |- context [ ?a <? ?b ] => destruct (Z.ltb_spec a b); simpl in *
  end.

Lemma set_priority_valid v o : valid (set_priority v o).1.
Proof. unfold valid, set_priority. order_cases; lia. Qed.

Lemma set_preemptible_valid v o :
  0 <= priority o -> valid (set_preemptible v o).1.
Proof. unfold valid, set_preemptible. intros. order_cases; lia. Qed.

Lemma set_restart_valid b o : valid o -> valid (set_restart b o).1.
Proof. unfold valid, set_restart. simpl. lia. Qed.

Lemma perform_valid c o : valid o -> valid (perform c o).1.
Proof.
  destruct c; simpl; intros Hv.
  - apply set_priority_valid.
  - apply set_preemptible_valid, Hv.
  - by apply set_restart_valid.
Qed.

Lemma bind_fst {A B} (m : warned A) (k : A -> warned B) :
  (bind m k).1 = (k m.1).1.
Proof. unfold bind. destruct m as [a w]. simpl. by destruct (k a). Qed.

Lemma perform_all_valid cs : forall o, valid o -> valid (perform_all cs o).1.
Proof.
  induction cs as [|c cs IH]; intros o Hv; [done|].
  simpl. rewrite bind_fst. apply IH, perform_valid, Hv.
Qed.

Lemma Order_valid raw p pe r : valid (Order raw p pe r).1.
Proof.
  unfold Order. rewrite !bind_fst.
  apply set_restart_valid, set_preemptible_valid.
  by destruct (set_priority_valid p raw).
Qed.

(** What the storage held before the constructor ran does not show in
    the constructed [Order], nor in the warnings. *)
Lemma Order_raw_irrelevant raw raw' p pe r :
  Order raw p pe r = Order raw' p pe r.
Proof.
  destruct raw as [rp rpe rr], raw' as [rp' rpe' rr'].
  unfold Order, bind, set_restart, set_preemptible, set_priority. simpl.
  destruct (p <? 0); simpl; order_cases; try lia; done.
Qed.

(** The setters only copy their inputs: values of type [int] stay so. *)
Lemma Order_is_int raw p pe r :
  is_int p -> is_int pe ->
  is_int (priority (Order raw p pe r).1) /\
  is_int (preemptible (Order raw p pe r).1).
Proof.
  unfold Order, is_int, INT_MIN, INT_MAX. rewrite !bind_fst.
  unfold set_restart, set_preemptible, set_priority. simpl.
  intros. order_cases; lia.
Qed.

(** C1. Whatever integers an [Order] is constructed from (and whatever
    its storage held before), and whatever sequence of [set_priority],
    [set_preemptible] and [set_restart] calls follows, the result
    satisfies [0 <= priority <= preemptible]; [Order(-3, -5)] has
    priority 0 and preemptible 0 and raises exactly the two coercion
    warnings; every operation returns an [Order] (a setter has no
    failing outcome, only warnings). *)
Theorem order_invariant_always_holds :
  (forall raw p pe r cs,
      valid (perform_all cs (Order raw p pe r).1).1) /\
  (forall raw,
      Order raw (-3) (-5) false =
      (mk 0 0 false, [priority_below_zero; preemptible_below_priority 0])).
Proof.
  split.
  - intros. apply perform_all_valid, Order_valid.
  - intros [rp rpe rr]. unfold Order, bind, set_priority. simpl.
    by destruct (rpe <? 0).
Qed.

(** C2. [set_priority v] stores 0 and warns when [v < 0] and stores [v]
    silently otherwise; [preemptible] becomes the new priority when it
    was below it and is kept otherwise; [restart] is kept. *)
Theorem set_priority_effect (o : t) (v : Z) :
  let o' := (set_priority v o).1 in
  let w := (set_priority v o).2 in
  priority o' = (if v <? 0 then 0 else v) /\
  w = (if v <? 0 then [priority_below_zero] else []) /\
  preemptible o' =
    (if preemptible o <? priority o' then priority o' else preemptible o) /\
  restart o' = restart o.
Proof.
  unfold set_priority. destruct o as [p pe r]. simpl.
  destruct (v <? 0); simpl.
  - destruct (pe <? 0) eqn:E; simpl; rewrite ?E; auto.
  - destruct (pe <? v) eqn:E; simpl; rewrite ?E; auto.
Qed.

End OrderFacts.

(** ** Results about the maps of an [Arrival] *)

Module ArrivalFacts.
Import Arrival.

Lemma umap_index_dom `{Countable K} {V} (d : V) (k : K) (m : gmap K V) :
  dom (umap_index d k m).2 = {[k]} ∪ dom m.
Proof.
  unfold umap_index. destruct (m !! k) eqn:E; simpl.
  - apply elem_of_dom_2 in E. set_solver.
  - by rewrite dom_insert_L.
Qed.

Lemma umap_index_miss `{Countable K} {V} (d : V) (k : K) (m : gmap K V) :
  m !! k = None -> umap_index d k m = (d, <[k := d]> m).
Proof. intros E. unfold umap_index. by rewrite E. Qed.

Lemma umap_index_hit `{Countable K} {V} (d v : V) (k : K) (m : gmap K V) :
  m !! k = Some v -> umap_index d k m = (v, m).
Proof. intros E. unfold umap_index. by rewrite E. Qed.

Lemma perform_restime_dom c a :
  dom (restime (perform c a)) =
  match indexed c with
  | Some n => {[n]} ∪ dom (restime a)
  | None => dom (restime a)
  end.
Proof.
  destruct c; simpl; try done;
    unfold set_start, set_activity, get_activity, set_selected, get_selected.
  - pose proof (umap_index_dom ArrTime.ArrTime name (restime a)) as E.
    destruct (umap_index _ _ _) as [x m]. simpl in *.
    rewrite dom_insert_L, E. set_solver.
  - pose proof (umap_index_dom ArrTime.ArrTime name (restime a)) as E.
    destruct (umap_index _ _ _) as [x m]. simpl in *.
    rewrite dom_insert_L, E. set_solver.
  - pose proof (umap_index_dom ArrTime.ArrTime name (restime a)) as E.
    by destruct (umap_index _ _ _) as [x m].
  - by destruct (umap_index _ _ _).
  - by destruct (umap_index _ _ _).
Qed.

Lemma perform_all_restime_dom cs : forall a,
  dom (restime (perform_all cs a)) =
  list_to_set (omap indexed cs) ∪ dom (restime a).
Proof.
  induction cs as [|c cs IH]; intros a; simpl; [set_solver|].
  unfold perform_all in *. simpl. rewrite IH, perform_restime_dom.
  destruct (indexed c); simpl; set_solver.
Qed.

Lemma perform_restime_size c a :
  size (restime (perform c a)) =
  match indexed c with
  | Some n =>
      if restime a !! n is Some _ then size (restime a) else S (size (restime a))
  | None => size (restime a)
  end.
Proof.
  assert (Hins : forall n f,
    size (let (x, m) := umap_index ArrTime.ArrTime n (restime a) in
          <[n := f x]> m) =
    if restime a !! n is Some _ then size (restime a) else S (size (restime a))).
  { intros n f. unfold umap_index. destruct (restime a !! n) eqn:E.
    - rewrite map_size_insert_Some; eauto.
    - rewrite insert_insert_eq. by apply map_size_insert_None. }
  destruct c; simpl; try done;
    unfold set_start, set_activity, get_activity, set_selected, get_selected.
  - specialize (Hins name (ArrTime.with_start value)).
    by destruct (umap_index _ _ _).
  - specialize (Hins name (ArrTime.with_activity value)).
    by destruct (umap_index _ _ _).
  - unfold umap_index. destruct (restime a !! name) eqn:E; simpl; [done|].
    by apply map_size_insert_None.
  - by destruct (umap_index _ _ _).
  - by destruct (umap_index _ _ _).
Qed.

(** C8. A read of a per-resource activity time, of a selected-resource
    handle or of an attribute under a key that was never set returns the
    default (0, the null pointer, 0) and every accessor is total;
    [set_attribute key value] makes [key] map to [value], keeps every
    other entry, and so adds exactly one entry when [key] is new and none
    when it is present; after [set_attribute "k" 5.0] an unset ["j"]
    still reads as 0. *)
Theorem lookup_miss_defaults (a : t) :
  (forall name, restime a !! name = None -> (get_activity name a).1 = 0%Q) /\
  (forall id, selected a !! id = None -> (get_selected id a).1 = nullptr) /\
  (forall key, attributes a !! key = None -> get_attribute key a = 0%Q) /\
  (forall key value,
      attributes (set_attribute key value a).2 !! key = Some value /\
      (forall j, j ≠ key ->
         attributes (set_attribute key value a).2 !! j = attributes a !! j) /\
      dom (attributes (set_attribute key value a).2) =
        {[key]} ∪ dom (attributes a) /\
      size (attributes (set_attribute key value a).2) =
        if attributes a !! key is Some _ then size (attributes a)
        else S (size (attributes a))) /\
  (attributes a !! "j" = None ->
   get_attribute "j" (set_attribute "k" 5%Q a).2 = 0%Q).
Proof.
  repeat split.
  - intros name E. unfold get_activity. by rewrite (umap_index_miss _ _ _ E).
  - intros id E. unfold get_selected. by rewrite (umap_index_miss _ _ _ E).
  - intros key E. unfold get_attribute, get_attributes. by rewrite E.
  - simpl. apply lookup_insert_eq.
  - intros j Hj. simpl. by apply lookup_insert_ne.
  - simpl. apply dom_insert_L.
  - simpl. destruct (attributes a !! key) eqn:E.
    + rewrite map_size_insert_Some; eauto.
    + by apply map_size_insert_None.
  - intros E. unfold get_attribute, get_attributes. simpl.
    rewrite lookup_insert_ne by done. by rewrite E.
Qed.

(** The defaults of C8 on a freshly constructed arrival. *)
Example lookup_miss_defaults_fresh :
  (get_activity "server" arrival0).1 = 0%Q /\
  (get_selected 7 arrival0).1 = nullptr /\
  get_attribute "j" (set_attribute "k" 5%Q arrival0).2 = 0%Q /\
  (set_attribute "k" 5%Q arrival0).1 = created.
Proof. by vm_compute. Qed.

(** C9, as stated, fails: on a freshly constructed arrival, which has
    visited no resource, the read [get_activity("server")] alone leaves a
    [restime] entry for ["server"]. *)
Lemma restime_entry_without_visit :
  restime arrival0 = ∅ /\
  omap visit [call_get_activity "server"] = [] /\
  restime (perform_all [call_get_activity "server"] arrival0) !! "server" =
    Some ArrTime.ArrTime.
Proof. by vm_compute. Qed.

(** C9, amended. The keys of [restime] are unique; after any sequence of
    calls its keys are the keys it had plus every name passed to
    [set_start], [set_activity] or [get_activity]; each such call adds
    exactly one entry when its name is new and none otherwise, every
    other call adds none; and [get_activity] on a name that is not a key
    creates the value-initialised entry for it. *)
Theorem restime_keys_are_indexed_names (a : t) (cs : list call) :
  NoDup (map_to_list (restime (perform_all cs a))).*1 /\
  dom (restime (perform_all cs a)) =
    list_to_set (omap indexed cs) ∪ dom (restime a) /\
  (forall c,
      size (restime (perform c a)) =
      match indexed c with
      | Some n =>
          if restime a !! n is Some _ then size (restime a) else S (size (restime a))
      | None => size (restime a)
      end) /\
  (forall n, restime a !! n = None ->
      restime (get_activity n a).2 !! n = Some ArrTime.ArrTime).
Proof.
  split; [apply NoDup_fst_map_to_list|].
  split; [apply perform_all_restime_dom|].
  split; [intros c; apply perform_restime_size|].
  intros n E. unfold get_activity. rewrite (umap_index_miss _ _ _ E).
  simpl. apply lookup_insert_eq.
Qed.

End ArrivalFacts.

(** ** Results about [Batched] *)

Module BatchedFacts.
Import Arrival Batched.

(** C10. Whatever the constructor arguments (and the storage the
    temporary [Order()] is built in), a new [Batched] is monitored
    ([mon] is 1), has the order (0, 0, false) built without a warning,
    and takes its simulator handle, name, batcher activity and
    [permanent] flag from the arguments; everything else is fixed: no
    members, default lifetime, empty maps, a new clone counter at 1. *)
Theorem batched_is_monitored_with_default_order
    (raw : Order.t) (sim : ptr) (name : string) (batcher : ptr)
    (permanent : bool) (h : Heap.t) :
  let r := Batched raw sim name batcher permanent h in
  let b := r.1.1 in
  r.2 = [] /\
  Entity.mon (base (arrival b)) = 1 /\
  Entity.is_monitored (base (arrival b)) = true /\
  order (arrival b) = Order.mk 0 0 false /\
  Entity.sim (base (arrival b)) = sim /\
  Entity.name (base (arrival b)) = name /\
  activity (arrival b) = batcher /\
  Batched.permanent b = permanent /\
  arrivals b = [] /\
  lifetime (arrival b) = ArrTime.ArrTime /\
  restime (arrival b) = ∅ /\
  attributes (arrival b) = ∅ /\
  selected (arrival b) = ∅ /\
  Heap.load (clones (arrival b)) r.1.2 = Some 1.
Proof.
  destruct raw as [rp rpe rr].
  unfold Batched, Order.Order_default, Order.Order, Order.bind,
    Order.set_priority, Arrival, Heap.new_int, Heap.load.
  simpl. destruct (rpe <? 0); simpl; repeat split; apply lookup_insert_eq.
Qed.

End BatchedFacts.

(** ** Results about the shared clone counter *)

Module CloneFacts.
Import Arrival.

Lemma wrap_int_id z : Order.is_int z -> wrap_int z = z.
Proof.
  unfold Order.is_int, Order.INT_MIN, Order.INT_MAX, wrap_int.
  intros. rewrite Z.mod_small; lia.
Qed.

Lemma heap_insert_same c n (h : Heap.t) :
  Heap.load c h = Some n ->
  Heap.mk (<[c := n]> (Heap.cells h)) (Heap.deleted h) = h.
Proof.
  destruct h as [m d]. unfold Heap.load. simpl. intros E.
  by rewrite insert_id.
Qed.

Lemma clone_from_shared picks : forall insts h c n,
  insts ≠ [] -> shares c insts -> Heap.load c h = Some n -> 0 < n ->
  n + Z.of_nat (length picks) <= Order.INT_MAX ->
  exists insts',
    clone_from picks insts h =
      Some (insts',
            Heap.mk (<[c := n + Z.of_nat (length picks)]> (Heap.cells h))
                    (Heap.deleted h)) /\
    shares c insts' /\
    length insts' = (length insts + length picks)%nat.
Proof.
  induction picks as [|i picks IH]; intros insts h c n Hne Hsh Hld Hpos Hmax.
  - exists insts. simpl. rewrite Z.add_0_r, heap_insert_same by done.
    repeat split; [done|lia].
  - simpl in *.
    assert (Hlen : (0 < length insts)%nat) by (destruct insts; simpl; [done|lia]).
    destruct (lookup_lt_is_Some_2 insts (i `mod` length insts)%nat)
      as [a Ha]; [apply Nat.mod_upper_bound; lia|].
    rewrite Ha. simpl.
    assert (Hc : clones a = c).
    { eapply (proj1 (Forall_lookup _ _) Hsh); eauto. }
    unfold clone. rewrite Hc, Hld. simpl.
    rewrite wrap_int_id
      by (unfold Order.is_int, Order.INT_MIN, Order.INT_MAX in *; lia).
    destruct (IH (insts ++ [a]) (Heap.store c (n + 1) h) c (n + 1))
      as (insts' & E & Hsh' & Hlen'); try lia.
    + by destruct insts.
    + apply Forall_app. split; [done|]. by constructor.
    + unfold Heap.load, Heap.store. simpl. apply lookup_insert_eq.
    + exists insts'. rewrite E. unfold Heap.store. simpl.
      rewrite insert_insert_eq.
      replace (n + 1 + Z.of_nat (length picks))
        with (n + Z.of_nat (S (length picks))) by lia.
      repeat split; [done|]. rewrite Hlen', length_app. simpl. lia.
Qed.

Lemma destroy_all_shared insts : forall h c n,
  shares c insts -> Heap.load c h = Some n ->
  Z.of_nat (length insts) <= n -> 0 < n -> n <= Order.INT_MAX ->
  destroy_all insts h =
    Some (if decide (n = Z.of_nat (length insts))
          then Heap.mk (delete c (Heap.cells h)) (c :: Heap.deleted h)
          else Heap.mk (<[c := n - Z.of_nat (length insts)]> (Heap.cells h))
                       (Heap.deleted h)).
Proof.
  induction insts as [|a insts IH]; intros h c n Hsh Hld Hlen Hpos Hmax.
  - simpl. rewrite decide_False by lia.
    by rewrite Z.sub_0_r, heap_insert_same.
  - apply Forall_cons in Hsh as [Hc Hsh]. simpl in *.
    unfold destroy. rewrite Hc, Hld. simpl.
    rewrite wrap_int_id
      by (unfold Order.is_int, Order.INT_MIN, Order.INT_MAX in *; lia).
    destruct (Z.eqb_spec (n - 1) 0) as [E|E].
    + destruct insts; [|simpl in *; lia]. simpl.
      rewrite decide_True by lia.
      unfold Heap.delete_int, Heap.store. simpl.
      by rewrite delete_insert_eq.
    + rewrite (IH _ c (n - 1)); try lia; try done.
      * unfold Heap.store. simpl.
        destruct (decide (n - 1 = Z.of_nat (length insts)));
          [rewrite decide_True by lia | rewrite decide_False by lia].
        -- by rewrite delete_insert_eq.
        -- rewrite insert_insert_eq. do 3 f_equal. lia.
      * unfold Heap.load, Heap.store. simpl. apply lookup_insert_eq.
Qed.

(** C6. An arrival is constructed and cloned [N] times (each clone taken
    from any instance made so far), where [N + 1] fits an [int]: this
    succeeds and gives [N + 1] instances and a counter holding [N + 1].
    Destroying any [k] of them, in any order, succeeds; while [k < N + 1]
    the counter is live, holds [N + 1 - k] and nothing was freed; when
    [k = N + 1] the counter is gone and was passed to [delete] exactly
    once, by the last destruction. *)
Theorem clone_counter_freed_exactly_once
    (sim : ptr) (name : string) (mon : Z) (ord : Order.t) (act : ptr)
    (h0 : Heap.t) (picks : list nat) :
  Z.of_nat (length picks) + 1 <= Order.INT_MAX ->
  let N := length picks in
  let a0 := (Arrival sim name mon ord act h0).1 in
  let c := clones a0 in
  exists insts h,
    clone_from picks [a0] (Arrival sim name mon ord act h0).2 =
      Some (insts, h) /\
    length insts = S N /\
    Heap.load c h = Some (Z.of_nat (S N)) /\
    forall (order : list t) (k : nat),
      order ≡ₚ insts -> (k <= S N)%nat ->
      exists h',
        destroy_all (take k order) h = Some h' /\
        Heap.load c h' =
          (if decide (k < S N)%nat then Some (Z.of_nat (S N - k)) else None) /\
        Heap.deleted h' =
          (if decide (k < S N)%nat then Heap.deleted h0
           else c :: Heap.deleted h0).
Proof.
  intros Hmax N a0 c.
  destruct (clone_from_shared picks [a0]
              (Arrival sim name mon ord act h0).2 c 1)
    as (insts & E & Hsh & Hlen); try done; try lia.
  { by repeat constructor. }
  { unfold c, a0, Arrival, Heap.load, Heap.new_int. simpl.
    apply lookup_insert_eq. }
  eexists insts, _. split; [exact E|].
  split; [simpl in Hlen; lia|].
  split; [unfold Heap.load; simpl; rewrite lookup_insert_eq; f_equal; lia|].
  intros order k Hperm Hk.
  assert (Hshk : shares c (take k order)).
  { apply Forall_take. unfold shares. by rewrite Hperm. }
  assert (Hlk : length (take k order) = k).
  { rewrite length_take, Hperm, Hlen. simpl. lia. }
  eexists. split.
  - apply (destroy_all_shared _ _ c (1 + Z.of_nat N)); try done; try lia.
    unfold Heap.load. simpl. apply lookup_insert_eq.
  - rewrite Hlk. simpl Heap.cells. simpl Heap.deleted.
    destruct (decide (k < S N)%nat).
    + rewrite decide_False by lia. unfold Heap.load. simpl.
      rewrite lookup_insert_eq. split; [f_equal; lia|].
      unfold Arrival, Heap.new_int. by simpl.
    + rewrite decide_True by lia. unfold Heap.load. simpl.
      rewrite lookup_delete_eq. split; [done|].
      unfold Arrival, Heap.new_int. by simpl.
Qed.

(** C6 on an arrival cloned twice (the second clone taken from the first
    one): the three instances are destroyed in the order second clone,
    original, first clone. *)
Lemma clone_counter_freed_exactly_once_witness :
  exists insts h,
    clone_from [0%nat; 1%nat] [arrival0]
      (Arrival None "arrival0" 1 (Order.mk 0 0 false) None Heap.empty).2 =
      Some (insts, h) /\
    length insts = 3%nat /\
    Heap.load (clones arrival0) h = Some 3 /\
    forall (order : list t) (k : nat),
      order ≡ₚ insts -> (k <= 3)%nat ->
      exists h',
        destroy_all (take k order) h = Some h' /\
        Heap.load (clones arrival0) h' =
          (if decide (k < 3)%nat then Some (Z.of_nat (3 - k)) else None) /\
        Heap.deleted h' =
          (if decide (k < 3)%nat then []
           else [clones arrival0]).
Proof.
  apply (clone_counter_freed_exactly_once
           None "arrival0" 1 (Order.mk 0 0 false) None Heap.empty
           [0%nat; 1%nat]).
  by vm_compute.
Defined.

End CloneFacts.

(** ** Results about [leave] *)

Module LeaveFacts.
Import Arrival Leave.



(** C3 on an arrival that started service at a resource at time 1 and
    would be busy until time 10, leaving at times 8 and 12: an order
    that does not restart keeps 2, then 0; an order that restarts keeps
    the full 9 both times. *)
Example leave_sets_remaining_at_8_and_12 :
  let served := with_restime {["server" := ArrTime.mk 1 0 10 0]} in
  restime (leave "server" 8 (served arrival0)) !! "server" =
    Some (ArrTime.mk 1 (0 + (8 - 1)) 10 (10 - 8)) /\
  restime (leave "server" 12 (served arrival0)) !! "server" =
    Some (ArrTime.mk 1 (0 + (12 - 1)) 10 0) /\
  restime (leave "server" 8 (served restarting0)) !! "server" =
    Some (ArrTime.mk 1 (0 + (8 - 1)) 10 (10 - 1)) /\
  restime (leave "server" 12 (served restarting0)) !! "server" =
    Some (ArrTime.mk 1 (0 + (12 - 1)) 10 (10 - 1)).
Proof. by vm_compute. Qed.

End LeaveFacts.

(** ** Results about [Generator] *)

Module GeneratorFacts.
Import Simulator Generator.

Lemma next_firing_arrivals evs : forall t rest,
  next_firing evs = Some (t, rest) ->
  omap (λ e, match e.2 with
             | proc_arrival a => Some (e.1, a)
             | proc_generator => None
             end) rest =
  omap (λ e, match e.2 with
             | proc_arrival a => Some (e.1, a)
             | proc_generator => None
             end) evs.
Proof.
  induction evs as [|[t' [|a]] evs IH]; intros t rest E; simpl in *.
  - done.
  - by injection E as _ <-.
  - destruct (next_firing evs) as [[t'' rest']|]; [|done].
    injection E as _ <-. simpl. f_equal. eauto.
Qed.

Lemma next_firing_app_generator evs t :
  next_firing evs = None ->
  next_firing (evs ++ [(t, proc_generator)]) = Some (t, evs).
Proof.
  induction evs as [|[t' [|a]] evs IH]; intros E; simpl in *; try done.
  destruct (next_firing evs) as [[t'' rest']|]; [done|].
  by rewrite IH.
Qed.

Lemma next_firing_app_arrival evs t a :
  next_firing (evs ++ [(t, proc_arrival a)]) =
  match next_firing evs with
  | Some (t', rest) => Some (t', rest ++ [(t, proc_arrival a)])
  | None => None
  end.
Proof.
  induction evs as [|[t' [|b]] evs IH]; simpl; try done.
  rewrite IH. by destruct (next_firing evs) as [[t'' rest']|].
Qed.

Lemma drive_stuck n w : fire w = None -> drive n w = w.
Proof. intros E. destruct n; simpl; [done|]. by rewrite E. Qed.

Lemma drive_add m : forall n w, drive (m + n) w = drive n (drive m w).
Proof.
  induction m as [|m IH]; intros n w; simpl; [done|].
  destruct (fire w) as [w'|] eqn:E; [apply IH|].
  by rewrite drive_stuck.
Qed.

(** One firing of a running generator, when the provider answers a
    duration that is no termination signal. *)
Lemma run_go g s h q :
  answers (dist g) (asked (dist g)) = finite q -> Qle_bool 0 q = true ->
  run g s h =
  (mk (base g) (wrap_int (count g + 1)) (first_activity g)
      (next (dist g)).2 (order g),
   schedule 0
     (proc_arrival
        (Arrival.Arrival (Entity.sim (base g)) (Entity.name (base g))
           (Entity.mon (base g)) (order g) (first_activity g) h).1)
     (schedule q proc_generator s),
   (Arrival.Arrival (Entity.sim (base g)) (Entity.name (base g))
      (Entity.mon (base g)) (order g) (first_activity g) h).2).
Proof. intros E Hq. unfold run, next. simpl. by rewrite E, Hq. Qed.

Lemma run_stop g s h :
  is_stop (answers (dist g) (asked (dist g))) = true ->
  run g s h = (with_dist (next (dist g)).2 g, s, h).
Proof.
  unfold run, next, is_stop. simpl.
  destruct (answers _ _) as [q|]; [|done].
  by destruct (Qle_bool 0 q).
Qed.

Lemma running_started g0 :
  count g0 = 0 -> asked (dist g0) = 0%nat -> running g0 0 (started g0).
Proof.
  intros Hc Ha. unfold running, started. simpl.
  repeat split; try done. by eexists _, _.
Qed.

Lemma running_fire g0 j w :
  running g0 j w -> Z.of_nat j < Order.INT_MAX ->
  is_stop (answers (dist g0) j) = false ->
  exists w', fire w = Some w' /\ running g0 (S j) w'.
Proof.
  destruct w as [[g s] h]. unfold running. simpl.
  intros (Hc & Ha & Hans & Hlen & t & rest & Hnf & Hrest) Hmax Hgo.
  rewrite Hnf. eexists. split; [done|].
  unfold is_stop in Hgo. rewrite <- Hans, <- Ha in Hgo.
  destruct (answers (dist g) (asked (dist g))) as [q|] eqn:E; [|done].
  apply negb_false_iff in Hgo. rewrite (run_go _ _ _ q E Hgo). simpl.
  rewrite Hc, CloneFacts.wrap_int_id
    by (unfold Order.is_int, Order.INT_MIN, Order.INT_MAX in *; lia).
  repeat split; try done; try lia.
  - unfold scheduled_arrivals in *. simpl. rewrite !omap_app. simpl.
    rewrite (next_firing_arrivals _ _ _ Hnf), !length_app, Hlen.
    simpl. lia.
  - rewrite next_firing_app_arrival, next_firing_app_generator by done.
    eexists _, _. split; [done|].
    by rewrite next_firing_app_arrival, Hrest.
Qed.

Lemma running_drive g0 j :
  count g0 = 0 -> asked (dist g0) = 0%nat ->
  Z.of_nat j <= Order.INT_MAX ->
  (forall i, (i < j)%nat -> is_stop (answers (dist g0) i) = false) ->
  running g0 j (drive j (started g0)).
Proof.
  intros Hc Ha. induction j as [|j IH]; intros Hmax Hgo.
  - by apply running_started.
  - replace (S j) with (j + 1)%nat by lia. rewrite drive_add.
    destruct (running_fire g0 j (drive j (started g0)))
      as (w' & E & Hw'); [apply IH; [lia|intros; apply Hgo; lia] |lia| |].
    + apply Hgo. lia.
    + simpl. rewrite E. by replace (j + 1)%nat with (S j) by lia.
Qed.

Lemma running_stops g0 k w :
  running g0 k w -> is_stop (answers (dist g0) k) = true ->
  exists w',
    fire w = Some w' /\ fire w' = None /\
    count w'.1.1 = Z.of_nat k /\
    length (scheduled_arrivals w'.1.2) = k.
Proof.
  destruct w as [[g s] h]. unfold running. simpl.
  intros (Hc & Ha & Hans & Hlen & t & rest & Hnf & Hrest) Hstop.
  rewrite Hnf. eexists. split; [done|].
  rewrite <- Hans, <- Ha in Hstop. rewrite (run_stop _ _ _ Hstop).
  simpl. rewrite Hrest. repeat split; try done.
  unfold scheduled_arrivals in *. simpl.
  by rewrite (next_firing_arrivals _ _ _ Hnf).
Qed.

(** C4. (1) When the provider answers a termination signal (a duration
    that is not finite or is negative), [run] schedules nothing, makes no
    arrival and leaves the count; with no firing of the generator
    pending, nothing happens any more.  (2) When it answers a finite
    [q >= 0], [run] schedules the generator [q] ahead, builds one arrival
    with the generator's order and first activity, adds one to the count
    and hands the arrival to the scheduler at offset 0.  (3) A started
    generator whose provider's first signal is its answer number [k]
    ends, for any number of further firings allowed, with exactly [k]
    arrivals made and scheduled and no firing pending. *)
Theorem generator_run_until_signal (g : t) :
  (forall s h,
      is_stop (answers (dist g) (asked (dist g))) = true ->
      run g s h = (with_dist (next (dist g)).2 g, s, h) /\
      (next_firing (events s) = None ->
       forall n, drive n (run g s h) = run g s h)) /\
  (forall s h q,
      answers (dist g) (asked (dist g)) = finite q -> (0 <= q)%Q ->
      let a :=
        (Arrival.Arrival (Entity.sim (base g)) (Entity.name (base g))
           (Entity.mon (base g)) (order g) (first_activity g) h).1 in
      events (run g s h).1.2 =
        events s ++ [((now s + q)%Q, proc_generator);
                     ((now s + 0)%Q, proc_arrival a)] /\
      count (run g s h).1.1 = wrap_int (count g + 1) /\
      (Order.is_int (count g) -> count g < Order.INT_MAX ->
       count (run g s h).1.1 = count g + 1) /\
      Arrival.order a = order g /\
      Arrival.activity a = first_activity g) /\
  (forall k,
      count g = 0 -> asked (dist g) = 0%nat ->
      Z.of_nat k <= Order.INT_MAX ->
      (forall i, (i < k)%nat -> is_stop (answers (dist g) i) = false) ->
      is_stop (answers (dist g) k) = true ->
      forall n, (k < n)%nat ->
        get_n_generated (drive n (started g)).1.1 = Z.of_nat k /\
        length (scheduled_arrivals (drive n (started g)).1.2) = k /\
        next_firing (events (drive n (started g)).1.2) = None).
Proof.
  split; [|split].
  - intros s h Hstop. rewrite (run_stop _ _ _ Hstop). split; [done|].
    intros Hnf n. apply drive_stuck. unfold fire. simpl. by rewrite Hnf.
  - intros s h q E Hq a. apply Qle_bool_iff in Hq.
    rewrite (run_go _ _ _ q E Hq). simpl. fold a.
    rewrite <- app_assoc. simpl. repeat split; try done.
    intros Hint Hlt. apply CloneFacts.wrap_int_id.
    unfold Order.is_int, Order.INT_MIN, Order.INT_MAX in *. lia.
  - intros k Hc Ha Hmax Hgo Hstop n Hn.
    destruct (running_stops g k (drive k (started g)))
      as (w' & E1 & E2 & Hcount & Hlen);
      [by apply running_drive | done |].
    replace n with (k + (1 + (n - k - 1)))%nat by lia.
    rewrite !drive_add. simpl. rewrite E1, (drive_stuck _ _ E2).
    unfold get_n_generated. repeat split; try done.
    destruct w' as [[g' s'] h']. unfold fire in E2. simpl in *.
    by destruct (next_firing (events s')) as [[t rest]|].
Qed.

(** C4 on [generator_2_3_stop], the scheduler allowing up to 5 firings:
    two arrivals and nothing pending. *)
Lemma generator_run_until_signal_witness :
  get_n_generated (drive 5 (started generator_2_3_stop)).1.1 = 2 /\
  length (scheduled_arrivals (drive 5 (started generator_2_3_stop)).1.2) =
    2%nat /\
  next_firing (events (drive 5 (started generator_2_3_stop)).1.2) = None.
Proof.
  apply (proj2 (proj2 (generator_run_until_signal generator_2_3_stop))
           2%nat); try done; try lia.
  intros [|[|i]] Hi; try done. lia.
Defined.

(** The two arrivals are handed to the scheduler at times 0 and 2. *)
Example generator_two_arrivals :
  (scheduled_arrivals (drive 10 (started generator_2_3_stop)).1.2).*1 =
  [0%Q; 2%Q].
Proof. by vm_compute. Qed.

End GeneratorFacts.

(** ** Results about [Manager] *)

Module ManagerFacts.
Import Manager.

Lemma succ_mod (k n : nat) :
  (0 < n)%nat ->
  (S k `mod` n)%nat =
  if decide (S (k `mod` n) = n) then 0%nat else S (k `mod` n).
Proof.
  intros Hn. pose proof (Nat.div_mod_eq k n) as Hk.
  pose proof (Nat.mod_upper_bound k n ltac:(lia)) as Hlt.
  destruct (decide (S (k `mod` n) = n)) as [E|E]; symmetry.
  - apply (Nat.mod_unique _ _ (S (k / n))); lia.
  - apply (Nat.mod_unique _ _ (k / n)); lia.
Qed.

Lemma drive_dormant k w : dormant w = true -> drive k w = w.
Proof. intros E. destruct k; simpl; [done|]. by rewrite E. Qed.

Lemma drive_S_end k : forall w,
  drive (S k) w =
  if dormant (drive k w) then drive k w else run (drive k w).
Proof.
  induction k as [|k IH]; intros w.
  - simpl. by destruct (dormant w).
  - change (drive (S (S k)) w)
      with (if dormant w then w else drive (S k) (run w)).
    destruct (dormant w) eqn:E.
    + by rewrite (drive_dormant (S k) w E), E.
    + rewrite IH. simpl. by rewrite E.
Qed.

Lemma replay_S ds vs k :
  replay ds vs (S k) =
  replay ds vs k ++ [(clock ds (S k), nth (k `mod` length vs) vs 0)].
Proof. unfold replay. by rewrite seq_S, map_app. Qed.

Lemma with_index_zero m : index m = 0%nat -> with_index 0 m = m.
Proof. destruct m. simpl. by intros ->. Qed.

(** One firing at a step [i] inside the schedule. *)
Lemma run_step m i t log :
  length (value m) = length (duration m) -> (i < length (duration m))%nat ->
  run (mk_world (with_index i m) t log false) =
  mk_world
    (with_index
       (if decide (S i = length (duration m))
        then if 0 <? period m then 0%nat else S i
        else S i) m)
    (t + nth i (duration m) 0)%Q
    (log ++ [((t + nth i (duration m) 0)%Q, nth i (value m) 0)])
    (if decide (S i = length (duration m)) then negb (0 <? period m)
     else false).
Proof.
  intros Hlen Hi. unfold run. simpl.
  destruct (nth_lookup_or_length (duration m) i 0%Q) as [->|]; [|lia].
  destruct (nth_lookup_or_length (value m) i 0) as [->|]; [|lia].
  destruct (decide (S i = length (duration m))); [|done].
  by destruct (0 <? period m).
Qed.

(** A schedule with a positive period is replayed for ever. *)
Lemma drive_cyclic m k :
  length (value m) = length (duration m) -> (0 < length (duration m))%nat ->
  index m = 0%nat -> 0 < period m ->
  drive k (started m) =
  mk_world (with_index (k `mod` length (duration m)) m)
    (clock (duration m) k) (replay (duration m) (value m) k) false.
Proof.
  intros Hlen Hn Hi Hp. induction k as [|k IH].
  - rewrite Nat.Div0.mod_0_l, with_index_zero by done. done.
  - rewrite drive_S_end, IH. simpl dormant. cbv iota.
    rewrite run_step by (try done; apply Nat.mod_upper_bound; lia).
    rewrite replay_S, Hlen, (succ_mod k) by done.
    assert (Hpos : (0 <? period m) = true) by (apply Z.ltb_lt; lia).
    rewrite Hpos. simpl. by destruct (decide _).
Qed.

(** A schedule with a period that is not positive is replayed once. *)
Lemma drive_once m k :
  length (value m) = length (duration m) -> (0 < length (duration m))%nat ->
  index m = 0%nat -> period m <= 0 ->
  (k <= length (duration m))%nat ->
  drive k (started m) =
  mk_world (with_index k m)
    (clock (duration m) k) (replay (duration m) (value m) k)
    (bool_decide (k = length (duration m))).
Proof.
  intros Hlen Hn Hi Hp. induction k as [|k IH]; intros Hk.
  - rewrite bool_decide_eq_false_2, with_index_zero by (done || lia). done.
  - rewrite drive_S_end, IH by lia.
    rewrite bool_decide_eq_false_2 by lia. simpl dormant. cbv iota.
    rewrite run_step by (try done; lia).
    rewrite replay_S, Hlen, (Nat.mod_small k) by lia.
    assert (Hneg : (0 <? period m) = false) by (apply Z.ltb_ge; lia).
    rewrite Hneg. simpl. rewrite (Nat.mod_small k) by lia.
    destruct (decide (S k = length (duration m))).
    + by rewrite bool_decide_eq_true_2.
    + by rewrite bool_decide_eq_false_2.
Qed.

(** However many firings the scheduler allows, a schedule with a period
    that is not positive fires [n] times and is dormant afterwards. *)
Lemma drive_once_through m k :
  length (value m) = length (duration m) -> (0 < length (duration m))%nat ->
  index m = 0%nat -> period m <= 0 ->
  applied (drive k (started m)) =
    replay (duration m) (value m) (k `min` length (duration m)) /\
  dormant (drive k (started m)) = bool_decide (length (duration m) <= k)%nat.
Proof.
  intros Hlen Hn Hi Hp. set (n := length (duration m)).
  destruct (decide (k <= n)%nat) as [Hk|Hk].
  - rewrite drive_once, Nat.min_l by done. simpl. split; [done|].
    apply bool_decide_ext. unfold n. lia.
  - assert (Hd : forall a b w, drive (a + b) w = drive b (drive a w)).
    { induction a as [|a IH]; intros b w; simpl; [done|].
      destruct (dormant w) eqn:E; [by rewrite drive_dormant|apply IH]. }
    assert (Hdk : drive k (started m) = drive n (started m)).
    { replace k with (n + (k - n))%nat at 1 by lia.
      rewrite Hd, (drive_once m n) by (try done; lia).
      apply drive_dormant. simpl. by apply bool_decide_eq_true_2. }
    rewrite Hdk, (drive_once m n), Nat.min_r by (try done; lia).
    simpl. split; [done|].
    rewrite !bool_decide_eq_true_2; [done|lia|done].
Qed.

(** C5. For a manager with durations and values of the same length
    [n > 0], about to start: a firing at step [i] applies [value[i]]
    after waiting [duration[i]] and advances the index, which at the end
    wraps to 0 when [period > 0] and otherwise stays there, with the
    manager dormant.  With [period > 0] the first [k] firings are, for
    every [k], the cyclic replay of the schedule, and the manager is
    never dormant; with [period <= 0] there are exactly [n] firings,
    however many the scheduler allows, and the manager is dormant from
    the last one on. *)
Theorem manager_replays_schedule (m : t) :
  length (value m) = length (duration m) -> (0 < length (duration m))%nat ->
  index m = 0%nat ->
  let n := length (duration m) in
  (forall i t log, (i < n)%nat ->
      let w := run (mk_world (with_index i m) t log false) in
      applied w =
        log ++ [((t + nth i (duration m) 0)%Q, nth i (value m) 0)] /\
      now w = (t + nth i (duration m) 0)%Q /\
      index (manager w) =
        (if decide (S i = n) then if 0 <? period m then 0%nat else n
         else S i) /\
      dormant w = (if decide (S i = n) then negb (0 <? period m) else false)) /\
  (0 < period m ->
   forall k,
     applied (drive k (started m)) = replay (duration m) (value m) k /\
     index (manager (drive k (started m))) = (k `mod` n)%nat /\
     dormant (drive k (started m)) = false) /\
  (period m <= 0 ->
   forall k,
     applied (drive k (started m)) =
       replay (duration m) (value m) (k `min` n) /\
     dormant (drive k (started m)) = bool_decide (n <= k)%nat).
Proof.
  intros Hlen Hn Hi n. split; [|split].
  - intros i t log Hlt w. unfold w. rewrite run_step by done. simpl.
    repeat split. fold n. destruct (decide (S i = n)) as [<-|]; [|done].
    by destruct (0 <? period m).
  - intros Hp k. by rewrite drive_cyclic.
  - intros Hp k. by apply drive_once_through.
Qed.

(** C5 on [manager_10_20 2]: the first six firings. *)
Lemma manager_replays_schedule_witness :
  applied (drive 6 (started (manager_10_20 2))) =
    [(1%Q, 10); (3%Q, 20); (4%Q, 10); (6%Q, 20); (7%Q, 10); (9%Q, 20)] /\
  index (manager (drive 6 (started (manager_10_20 2)))) = 0%nat /\
  dormant (drive 6 (started (manager_10_20 2))) = false.
Proof.
  apply (proj1 (proj2 (manager_replays_schedule (manager_10_20 2)
                         eq_refl ltac:(simpl; lia) eq_refl))
           ltac:(simpl; lia) 6%nat).
Defined.

(** With a period that is not positive: two firings, then dormancy. *)
Example manager_once_through :
  forall k,
    applied (drive (2 + k) (started (manager_10_20 0))) =
      [(1%Q, 10); (3%Q, 20)] /\
    dormant (drive (2 + k) (started (manager_10_20 0))) = true.
Proof.
  intros k.
  destruct (drive_once_through (manager_10_20 0) (2 + k))
    as [-> ->]; try done; try (simpl; lia).
  rewrite Nat.min_r by (simpl; lia). split; [done|].
  apply bool_decide_eq_true_2. simpl. lia.
Qed.

End ManagerFacts.

(** ** Results about terminating a [Batched] *)

Module TerminateFacts.
Import Arrival Terminate.

Lemma release_all members : forall s,
  Simulator.now (foldl release s members) = Simulator.now s /\
  Simulator.events (foldl release s members) =
    Simulator.events s ++
    map (λ a, ((Simulator.now s + 0)%Q, Simulator.proc_arrival a)) members.
Proof.
  induction members as [|a members IH]; intros s; simpl.
  - by rewrite app_nil_r.
  - destruct (IH (release s a)) as [-> ->]. simpl.
    by rewrite <- app_assoc.
Qed.

(** C7. [terminate finished] on a batch that is not permanent finalizes
    the batch alone (the sink receives its record and no other) and hands
    every member, unchanged, back to the scheduler at the current time;
    on a permanent batch it schedules nothing and the sink receives the
    batch's record for the batch and, the same record, for every
    member. *)
Theorem batched_terminate_releases_or_finalizes
    (finished : bool) (b : Batched.t) (w : world) :
  let r := terminal finished (Simulator.now (sim w)) (Batched.arrival b) in
  (Batched.permanent b = false ->
     monitor (terminate finished b w) =
       monitor w ++ [(Batched.arrival b, r)] /\
     Simulator.events (sim (terminate finished b w)) =
       Simulator.events (sim w) ++
       map (λ a, ((Simulator.now (sim w) + 0)%Q, Simulator.proc_arrival a))
           (Batched.arrivals b) /\
     Simulator.now (sim (terminate finished b w)) = Simulator.now (sim w)) /\
  (Batched.permanent b = true ->
     sim (terminate finished b w) = sim w /\
     monitor (terminate finished b w) =
       monitor w ++
       (Batched.arrival b, r) :: map (λ a, (a, r)) (Batched.arrivals b) /\
     Forall (λ a, (a, r) ∈ monitor (terminate finished b w))
            (Batched.arrivals b) /\
     rec_finished r = finished /\
     rec_end r = Simulator.now (sim w)).
Proof.
  intros r. unfold terminate, Batched.is_permanent. fold r.
  split; intros ->; simpl.
  - destruct (release_all (Batched.arrivals b) (sim w)) as [-> ->]. done.
  - repeat split. apply Forall_forall. intros a Ha.
    apply elem_of_app. right. apply elem_of_cons. right.
    apply (list_elem_of_fmap_2 (λ a, (a, r))). exact Ha.
Qed.

(** C7 with three members, at time 0 with nothing scheduled or recorded:
    not permanent, three arrivals are scheduled and one record is
    emitted; permanent, nothing is scheduled and four records are
    emitted, all with the same content. *)
Example batch_of_three_terminated :
  let w := mk_world (Simulator.mk 0 []) [] in
  length (Simulator.scheduled_arrivals
            (sim (terminate true (batch_of_three false) w))) = 3%nat /\
  length (monitor (terminate true (batch_of_three false) w)) = 1%nat /\
  length (Simulator.scheduled_arrivals
            (sim (terminate true (batch_of_three true) w))) = 0%nat /\
  (monitor (terminate true (batch_of_three true) w)).*2 =
    replicate 4 (terminal true 0 arrival0).
Proof. by vm_compute. Qed.

End TerminateFacts.

(** ** More about [Order]: closed forms, warnings, composition *)

Module OrderLaws.
Import Order Notions.

Ltac by_cases :=
  repeat match goal with
  | |- context [ ?a <? ?b ] => destruct (Z.ltb_spec a b); simpl in *
  end.

Lemma fst_bind {A B} (m : warned A) (k : A -> warned B) :
  (bind m k).1 = (k m.1).1.
Proof. unfold bind. destruct m as [a w]. simpl. by destruct (k a). Qed.

Lemma snd_bind {A B} (m : warned A) (k : A -> warned B) :
  (bind m k).2 = m.2 ++ (k m.1).2.
Proof. unfold bind. destruct m as [a w]. simpl. by destruct (k a). Qed.

Lemma set_priority_result v o :
  priority (set_priority v o).1 = Z.max v 0 /\
  (set_priority v o).2 = (if v <? 0 then [priority_below_zero] else []).
Proof. unfold set_priority. by_cases; split; try done; lia. Qed.

Lemma Order_result raw p pe r :
  (Order raw p pe r).1 = mk (Z.max p 0) (Z.max pe (Z.max p 0)) r.
Proof.
  unfold Order. rewrite !fst_bind. unfold set_restart, set_preemptible.
  simpl. rewrite (proj1 (set_priority_result p raw)).
  destruct (set_priority p raw).1 as [p' pe' r']. simpl.
  by_cases; f_equal; lia.
Qed.

(** X1. The constructor [Order(p, pe, r)] stores priority [max p 0],
    preemptible [max pe (max p 0)] and restart [r], whatever the fields
    held before the setters ran on them. *)
Theorem Order_constructed_values (raw : t) (p pe : Z) (r : bool) :
  (Order raw p pe r).1 = mk (Z.max p 0) (Z.max pe (Z.max p 0)) r.
Proof.
  destruct raw as [rp rpe rr].
  unfold Order, bind, set_restart, set_preemptible, set_priority. simpl.
  destruct (Z.ltb_spec p 0); simpl; by_cases; f_equal; lia.
Qed.

(** X2. The constructor raises no warning exactly when
    [0 <= p <= pe], and exactly then it stores its arguments
    unchanged. *)
Theorem Order_silent_iff_in_range (raw : t) (p pe : Z) (r : bool) :
  ((Order raw p pe r).2 = [] <-> 0 <= p <= pe) /\
  ((Order raw p pe r).1 = mk p pe r <-> 0 <= p <= pe).
Proof.
  split.
  - unfold Order. rewrite !snd_bind. unfold set_restart at 1.
    cbn [snd]. rewrite app_nil_r. unfold set_preemptible.
    rewrite (proj1 (set_priority_result p raw)).
    rewrite (proj2 (set_priority_result p raw)).
    destruct (Z.ltb_spec p 0), (Z.ltb_spec pe (Z.max p 0)); simpl;
      split; intros; try done; lia.
  - rewrite Order_result. split.
    + intros E. injection E as E1 E2. lia.
    + intros E. f_equal; lia.
Qed.

(** [set_preemptible v] stores [max v priority] as the ceiling,
    keeps priority and restart, and warns (naming the priority it
    stored instead) exactly when [v] is below the priority. *)
Theorem set_preemptible_effect (o : t) (v : Z) :
  priority (set_preemptible v o).1 = priority o /\
  preemptible (set_preemptible v o).1 = Z.max v (priority o) /\
  restart (set_preemptible v o).1 = restart o /\
  (set_preemptible v o).2 =
    (if v <? priority o then [preemptible_below_priority (priority o)]
     else []).
Proof.
  unfold set_preemptible. destruct (Z.ltb_spec v (priority o)); simpl;
    repeat split; lia.
Qed.

Lemma perform_ceiling c o :
  keeps_ceiling c = true -> preemptible o <= preemptible (perform c o).1.
Proof.
  destruct c; simpl; try done; intros _.
  unfold set_priority. by_cases; lia.
Qed.

(** X3. Only [set_preemptible] can lower the ceiling: after any calls
    of [set_priority] and [set_restart], [preemptible] is at least what
    it was.  So a priority that was raised and lowered again leaves the
    ceiling raised. *)
Theorem preemptible_lowered_only_by_its_setter (cs : list call) (o : t) :
  forallb keeps_ceiling cs = true ->
  preemptible o <= preemptible (perform_all cs o).1.
Proof.
  revert o. induction cs as [|c cs IH]; intros o Hcs; simpl in *; [lia|].
  apply andb_true_iff in Hcs as [Hc Hcs].
  rewrite fst_bind. specialize (IH (perform c o).1 Hcs).
  pose proof (perform_ceiling c o Hc). lia.
Qed.

(** X3 on the order (0, 0): priority raised to 5 and lowered to 0. *)
Lemma preemptible_lowered_only_by_its_setter_witness :
  preemptible (mk 0 0 false) <=
  preemptible
    (perform_all [call_set_priority 5; call_set_priority 0]
       (mk 0 0 false)).1.
Proof.
  apply (preemptible_lowered_only_by_its_setter
           [call_set_priority 5; call_set_priority 0] (mk 0 0 false)).
  reflexivity.
Defined.

(** The ceiling really stays at 5 there. *)
Example ceiling_stays_raised :
  perform_all [call_set_priority 5; call_set_priority 0] (mk 0 0 false) =
  (mk 0 5 false, []).
Proof. reflexivity. Qed.

(** X4. Every setter is idempotent: calling it again with the same
    argument returns the same [Order], and the same warnings as the
    first call. *)
Theorem setter_idempotent (c : call) (o : t) :
  perform c (perform c o).1 = perform c o.
Proof.
  destruct o as [p pe r], c as [v|v|b]; simpl; [| |done].
  - unfold set_priority. simpl.
    destruct (Z.ltb_spec v 0); simpl; by_cases; try lia; done.
  - unfold set_preemptible. simpl.
    destruct (Z.ltb_spec v p); simpl; by_cases; try lia; done.
Qed.

(** X5. A setter warns exactly when it coerces: [set_priority v] and
    [set_preemptible v] return no warning if and only if the getter then
    returns [v]. *)
Theorem warning_iff_coerced (o : t) (v : Z) :
  ((set_priority v o).2 = [] <->
   get_priority (set_priority v o).1 = v) /\
  ((set_preemptible v o).2 = [] <->
   get_preemptible (set_preemptible v o).1 = v).
Proof.
  unfold set_priority, set_preemptible, get_priority, get_preemptible.
  split.
  - destruct (Z.ltb_spec v 0); simpl; by_cases; split; intros;
      try done; lia.
  - destruct (Z.ltb_spec v (priority o)); simpl; split; intros;
      try done; lia.
Qed.

Lemma perform_is_int c o :
  call_is_int c -> is_int (priority o) -> is_int (preemptible o) ->
  is_int (priority (perform c o).1) /\ is_int (preemptible (perform c o).1).
Proof.
  destruct c; simpl; intros Hc Hp Hpe; [| |done];
    unfold is_int, INT_MIN, INT_MAX in *.
  - unfold set_priority. by_cases; lia.
  - unfold set_preemptible. by_cases; lia.
Qed.

(** X6. The setters compute nothing that can overflow: when the
    constructor's arguments and the arguments of all later calls are
    [int] values, [priority] and [preemptible] are [int] values, also
    when the fields held something else before the constructor ran. *)
Theorem order_fields_stay_int (raw : t) (p pe : Z) (r : bool)
    (cs : list call) :
  is_int p -> is_int pe -> Forall call_is_int cs ->
  is_int (priority (perform_all cs (Order raw p pe r).1).1) /\
  is_int (preemptible (perform_all cs (Order raw p pe r).1).1).
Proof.
  intros Hp Hpe Hcs.
  assert (H0 : is_int (priority (Order raw p pe r).1) /\
               is_int (preemptible (Order raw p pe r).1)).
  { rewrite Order_result. simpl.
    unfold is_int, INT_MIN, INT_MAX in *. lia. }
  revert H0. generalize (Order raw p pe r).1 as o.
  induction Hcs as [|c cs Hc Hcs IH]; intros o [H1 H2]; simpl; [done|].
  rewrite fst_bind. apply IH. by apply perform_is_int.
Qed.

(** X6 on [Order(INT_MIN, INT_MAX, true)] built over fields that held
    values outside the [int] range, followed by two calls. *)
Lemma order_fields_stay_int_witness :
  is_int (priority
            (perform_all [call_set_priority INT_MAX;
                          call_set_preemptible INT_MIN]
               (Order (mk (2 ^ 40) (- 2 ^ 40) false)
                  INT_MIN INT_MAX true).1).1) /\
  is_int (preemptible
            (perform_all [call_set_priority INT_MAX;
                          call_set_preemptible INT_MIN]
               (Order (mk (2 ^ 40) (- 2 ^ 40) false)
                  INT_MIN INT_MAX true).1).1).
Proof.
  apply (order_fields_stay_int (mk (2 ^ 40) (- 2 ^ 40) false)
           INT_MIN INT_MAX true
           [call_set_priority INT_MAX; call_set_preemptible INT_MIN]).
  - unfold is_int, INT_MIN, INT_MAX. lia.
  - unfold is_int, INT_MIN, INT_MAX. lia.
  - repeat constructor; unfold is_int, INT_MIN, INT_MAX; simpl; lia.
Defined.

End OrderLaws.

(** ** More about the accessors of an [Arrival] *)

Module AccessorLaws.
Import Arrival.

(** Indexing and then assigning a field is one insertion. *)
Lemma index_then_insert `{Countable K} {V} (d : V) (f : V -> V) (k : K)
    (m : gmap K V) :
  (let (x, m') := umap_index d k m in <[k := f x]> m') =
  <[k := f (default d (m !! k))]> m.
Proof.
  unfold umap_index. destruct (m !! k); simpl; [done|].
  apply insert_insert_eq.
Qed.

Lemma set_start_insert n v a :
  set_start n v a =
  with_restime
    (<[n := ArrTime.with_start v
              (default ArrTime.ArrTime (restime a !! n))]> (restime a)) a.
Proof.
  unfold set_start.
  rewrite <- (index_then_insert ArrTime.ArrTime (ArrTime.with_start v)).
  by destruct (umap_index _ _ _).
Qed.

Lemma set_activity_insert n v a :
  set_activity n v a =
  with_restime
    (<[n := ArrTime.with_activity v
              (default ArrTime.ArrTime (restime a !! n))]> (restime a)) a.
Proof.
  unfold set_activity.
  rewrite <- (index_then_insert ArrTime.ArrTime (ArrTime.with_activity v)).
  by destruct (umap_index _ _ _).
Qed.

Lemma get_activity_value n a :
  (get_activity n a).1 =
  ArrTime.activity (default ArrTime.ArrTime (restime a !! n)).
Proof.
  unfold get_activity, umap_index. by destruct (restime a !! n).
Qed.

Lemma get_selected_value id a :
  (get_selected id a).1 = default nullptr (selected a !! id).
Proof.
  unfold get_selected, umap_index. by destruct (selected a !! id).
Qed.

Lemma set_selected_insert id res a :
  set_selected id res a = with_selected (<[id := res]> (selected a)) a.
Proof.
  unfold set_selected, umap_index. destruct (selected a !! id); [done|].
  by rewrite insert_insert_eq.
Qed.

(** X7. The activity time written with [set_activity name v] is what
    [get_activity name] returns; the activity times of the other
    resources read as before; and [set_start] changes no activity
    time, not even that of its own resource. *)
Theorem activity_written_is_read (a : t) (n m : string) (v : Q) :
  (get_activity n (set_activity n v a)).1 = v /\
  (m ≠ n ->
   (get_activity m (set_activity n v a)).1 = (get_activity m a).1) /\
  (get_activity m (set_start n v a)).1 = (get_activity m a).1.
Proof.
  rewrite !get_activity_value, set_activity_insert, set_start_insert.
  simpl. split; [|split].
  - by rewrite lookup_insert_eq.
  - intros Hne. by rewrite lookup_insert_ne.
  - destruct (decide (n = m)) as [->|Hne].
    + by rewrite lookup_insert_eq.
    + by rewrite lookup_insert_ne.
Qed.

(** X8. The handle stored with [set_selected id res] is what
    [get_selected id] returns; the handles of the other ids read as
    before; and a second [set_selected] on the same id replaces the
    first. *)
Theorem selected_written_is_read (a : t) (id id' : Z) (res res' : ptr) :
  (get_selected id (set_selected id res a)).1 = res /\
  (id' ≠ id ->
   (get_selected id' (set_selected id res a)).1 = (get_selected id' a).1) /\
  set_selected id res' (set_selected id res a) = set_selected id res' a.
Proof.
  rewrite !get_selected_value, !set_selected_insert. simpl.
  split; [|split].
  - by rewrite lookup_insert_eq.
  - intros Hne. by rewrite lookup_insert_ne.
  - unfold with_selected. simpl. by rewrite insert_insert_eq.
Qed.

(** X9. A read through [get_activity] or [get_selected] leaves the
    arrival as it is when the key is present, and reading the same key
    a second time never changes anything more: the entry a first read
    may have created is the only trace of reading. *)
Theorem reads_settle (a : t) (n : string) (id : Z) :
  (is_Some (restime a !! n) -> (get_activity n a).2 = a) /\
  (is_Some (selected a !! id) -> (get_selected id a).2 = a) /\
  get_activity n (get_activity n a).2 = get_activity n a /\
  get_selected id (get_selected id a).2 = get_selected id a.
Proof.
  destruct a as [b c o l rt act at_ sel].
  unfold get_activity, get_selected, umap_index, with_restime,
    with_selected. simpl.
  split; [|split; [|split]].
  - by intros [x ->].
  - by intros [x ->].
  - destruct (rt !! n) eqn:E; simpl; [by rewrite E|].
    by rewrite lookup_insert_eq.
  - destruct (sel !! id) eqn:E; simpl; [by rewrite E|].
    by rewrite lookup_insert_eq.
Qed.

(** X10. [set_start] and [set_activity] commute, on the same resource
    and on different ones: the start time and the activity time of a
    resource are recorded independently. *)
Theorem set_start_set_activity_commute (a : t) (n m : string) (v u : Q) :
  set_start n v (set_activity m u a) = set_activity m u (set_start n v a).
Proof.
  rewrite !set_start_insert, !set_activity_insert.
  unfold with_restime. simpl. f_equal.
  destruct (decide (n = m)) as [->|Hne].
  - by rewrite !lookup_insert_eq, !insert_insert_eq.
  - rewrite !lookup_insert_ne by done. by apply insert_insert_ne.
Qed.

Lemma perform_frame c a :
  base (perform c a) = base a /\
  clones (perform c a) = clones a /\
  order (perform c a) = order a /\
  lifetime (perform c a) = lifetime a /\
  attributes (perform c a) = attributes a.
Proof.
  destruct c; simpl; try done;
    unfold set_start, set_activity, get_activity, set_selected,
      get_selected;
    by destruct (umap_index _ _ _).
Qed.

Lemma perform_all_frame cs : forall a,
  base (perform_all cs a) = base a /\
  clones (perform_all cs a) = clones a /\
  order (perform_all cs a) = order a /\
  lifetime (perform_all cs a) = lifetime a /\
  attributes (perform_all cs a) = attributes a.
Proof.
  induction cs as [|c cs IH]; intros a; [done|].
  unfold perform_all in *. simpl.
  destruct (IH (perform c a)) as (-> & -> & -> & -> & ->).
  apply perform_frame.
Qed.

(** X11. No sequence of accessor calls ([set_start], both
    [set_activity], [get_activity], [set_selected], [get_selected],
    [get_attributes], [get_remaining]) changes the identity, the clone-counter pointer,
    the order, the lifetime accounting or the attributes of an
    arrival. *)
Theorem accessors_keep_identity (cs : list call) (a : t) :
  base (perform_all cs a) = base a /\
  clones (perform_all cs a) = clones a /\
  order (perform_all cs a) = order a /\
  lifetime (perform_all cs a) = lifetime a /\
  attributes (perform_all cs a) = attributes a.
Proof.
  revert a. induction cs as [|c cs IH]; intros a; [done|].
  unfold perform_all in *. simpl.
  destruct (IH (perform c a)) as (-> & -> & -> & -> & ->).
  destruct c; simpl; try done;
    unfold set_start, set_activity, get_activity, set_selected,
      get_selected;
    by destruct (umap_index _ _ _).
Qed.

End AccessorLaws.

(** ** More about construction and destruction *)

Module LifetimeLaws.
Import Arrival Notions.

Lemma new_int_fresh v h : (Heap.new_int v h).1 ∉ dom (Heap.cells h).
Proof. unfold Heap.new_int. simpl. apply is_fresh. Qed.

Lemma new_int_keeps v h p w :
  Heap.load p h = Some w -> Heap.load p (Heap.new_int v h).2 = Some w.
Proof.
  unfold Heap.load, Heap.new_int. simpl. intros E.
  rewrite lookup_insert_ne; [done|]. intros <-.
  apply (is_fresh (dom (Heap.cells h))). by apply elem_of_dom_2 in E.
Qed.

Lemma destroy_all_app l1 : forall l2 h,
  destroy_all (l1 ++ l2) h = (destroy_all l1 h ≫= destroy_all l2).
Proof.
  induction l1 as [|a l1 IH]; intros l2 h; simpl; [done|].
  destruct (destroy a h) as [h'|]; simpl; [apply IH|done].
Qed.

(** X12. An arrival that is constructed and destroyed at once gives the
    heap back: the counter it allocated was at an address that was not
    live, the destructor succeeds and deletes that counter once, and
    the live cells are again what they were. *)
Theorem construct_then_destroy (sim : ptr) (name : string) (mon : Z)
    (ord : Order.t) (act : ptr) (h : Heap.t) :
  let r := Arrival sim name mon ord act h in
  (clones r.1 ∉ dom (Heap.cells h)) /\
  Heap.load (clones r.1) r.2 = Some 1 /\
  destroy r.1 r.2 =
    Some (Heap.mk (Heap.cells h) (clones r.1 :: Heap.deleted h)).
Proof.
  intros r. unfold r, Arrival.
  pose proof (new_int_fresh 1 h) as Hf.
  unfold Heap.new_int in *. simpl in *. split; [done|].
  unfold destroy, Heap.load. simpl. rewrite lookup_insert_eq.
  split; [done|]. simpl.
  unfold Heap.delete_int, Heap.store. simpl. do 2 f_equal.
  rewrite !delete_insert_eq. apply delete_id.
  by apply not_elem_of_dom.
Qed.

(** X13. Constructing an arrival changes no counter that is live, so
    two arrivals constructed one after the other have different
    counters, each holding 1, and destroying either of them leaves the
    counter of the other at 1. *)
Theorem constructed_arrivals_own_their_counters
    (sim sim' : ptr) (name name' : string) (mon mon' : Z)
    (ord ord' : Order.t) (act act' : ptr) (h : Heap.t) :
  let r := Arrival sim name mon ord act h in
  let r' := Arrival sim' name' mon' ord' act' r.2 in
  (forall p v, Heap.load p h = Some v -> Heap.load p r.2 = Some v) /\
  clones r'.1 ≠ clones r.1 /\
  Heap.load (clones r.1) r'.2 = Some 1 /\
  Heap.load (clones r'.1) r'.2 = Some 1 /\
  (exists h1, destroy r.1 r'.2 = Some h1 /\
              Heap.load (clones r'.1) h1 = Some 1) /\
  (exists h2, destroy r'.1 r'.2 = Some h2 /\
              Heap.load (clones r.1) h2 = Some 1).
Proof.
  intros r r'.
  assert (H1 : Heap.load (clones r.1) r.2 = Some 1).
  { unfold r, Arrival, Heap.load, Heap.new_int. simpl.
    apply lookup_insert_eq. }
  assert (H2 : Heap.load (clones r'.1) r'.2 = Some 1).
  { unfold r', Arrival, Heap.load, Heap.new_int. simpl.
    apply lookup_insert_eq. }
  assert (Hne : clones r'.1 ≠ clones r.1).
  { intros E. pose proof (new_int_fresh 1 r.2) as Hf.
    apply Hf. change (Heap.new_int 1 r.2).1 with (clones r'.1).
    rewrite E. by apply (elem_of_dom_2 (Heap.cells r.2) _ 1). }
  assert (H3 : Heap.load (clones r.1) r'.2 = Some 1).
  { unfold r', Arrival. by apply new_int_keeps. }
  split; [intros p v; unfold r, Arrival; apply new_int_keeps|].
  split; [done|]. split; [done|]. split; [done|].
  split; eexists; (split; [unfold destroy; rewrite ?H2, ?H3; done|]).
  - unfold Heap.load, Heap.delete_int, Heap.store in *. simpl.
    by rewrite lookup_delete_ne, lookup_insert_ne.
  - unfold Heap.load, Heap.delete_int, Heap.store in *. simpl.
    by rewrite lookup_delete_ne, lookup_insert_ne.
Qed.

(** X14. The counter counts the destructions it allows: when the
    instances of a list share a counter that holds their number,
    destroying them all and then one more sharer does not succeed,
    because the last destructor finds the counter deleted. *)
Theorem one_destruction_too_many (insts : list t) (a : t) (c : loc)
    (h : Heap.t) :
  shares c insts -> clones a = c -> insts ≠ [] ->
  Heap.load c h = Some (Z.of_nat (length insts)) ->
  Z.of_nat (length insts) <= Order.INT_MAX ->
  destroy_all (insts ++ [a]) h = None.
Proof.
  intros Hsh Ha Hne Hld Hmax. rewrite destroy_all_app.
  rewrite (CloneFacts.destroy_all_shared insts h c _ Hsh Hld);
    [|lia|destruct insts; simpl; [done|lia]|done].
  rewrite decide_True by done. simpl.
  unfold destroy, Heap.load. simpl. rewrite Ha.
  by rewrite lookup_delete_eq.
Qed.

(** X14 on one constructed arrival destroyed twice. *)
Lemma one_destruction_too_many_witness :
  destroy_all ([arrival0] ++ [arrival0])
    (Arrival None "arrival0" 1 (Order.mk 0 0 false) None Heap.empty).2 =
  None.
Proof.
  apply (one_destruction_too_many [arrival0] arrival0 (clones arrival0));
    try done.
  by repeat constructor.
Defined.

(** X15. Accessor calls do not disturb the counting: when instances
    share a counter that holds their number, and each of them has since
    been changed by any accessor calls, destroying them all succeeds,
    removes the counter and deletes it exactly once. *)
Theorem accessed_instances_free_once (insts insts' : list t) (c : loc)
    (h : Heap.t) :
  shares c insts -> Forall2 accessed insts insts' -> insts ≠ [] ->
  Heap.load c h = Some (Z.of_nat (length insts)) ->
  Z.of_nat (length insts) <= Order.INT_MAX ->
  destroy_all insts' h =
    Some (Heap.mk (delete c (Heap.cells h)) (c :: Heap.deleted h)).
Proof.
  intros Hsh Hacc Hne Hld Hmax.
  assert (Hsh' : shares c insts').
  { unfold shares in *. clear Hne Hld Hmax.
    induction Hacc as [|a a' l l' [cs ->] _ IH]; [done|].
    apply Forall_cons in Hsh as [Ha Hl]. constructor; [|by apply IH].
    by rewrite (proj1 (proj2 (AccessorLaws.perform_all_frame cs a))). }
  assert (Hlen : length insts' = length insts)
    by (symmetry; by eapply Forall2_length).
  rewrite (CloneFacts.destroy_all_shared insts' h c
             (Z.of_nat (length insts))); try done; try lia.
  - by rewrite decide_True by lia.
  - destruct insts; simpl in *; [done|lia].
Qed.

(** X15 on two instances sharing the counter at address 1, which
    holds 2, after a [set_start] on one and a [get_activity] on the
    other. *)
Lemma accessed_instances_free_once_witness :
  destroy_all
    [perform_all [call_set_start "server" 3%Q] arrival0;
     perform_all [call_get_activity "server"] arrival0]
    (Heap.mk {[1%positive := 2]} []) =
  Some (Heap.mk (delete 1%positive {[1%positive := 2]}) [1%positive]).
Proof.
  refine (accessed_instances_free_once [arrival0; arrival0]
            [perform_all [call_set_start "server" 3%Q] arrival0;
             perform_all [call_get_activity "server"] arrival0]
            1%positive (Heap.mk {[1%positive := 2]} []) _ _ _ _ _);
    try done.
  - by repeat constructor.
  - repeat constructor; eexists; reflexivity.
Defined.

End LifetimeLaws.

(** ** About copying and destroying a [Batched] *)

Module BatchedLifeLaws.
Import Arrival BatchedLife Notions.

Lemma destroy_batched_as_list b h :
  BatchedLife.destroy b h =
  destroy_all (Batched.arrivals b ++ [Batched.arrival b]) h.
Proof.
  unfold BatchedLife.destroy. rewrite LifetimeLaws.destroy_all_app.
  destruct (destroy_all (Batched.arrivals b) h) as [h'|]; simpl; [|done].
  by destruct (Arrival.destroy (Batched.arrival b) h').
Qed.

(** Destroying arrivals each of which is the only owner of its
    counter. *)
Lemma destroy_all_owners l : forall h,
  NoDup (clones <$> l) ->
  Forall (λ a, Heap.load (clones a) h = Some 1) l ->
  exists h',
    destroy_all l h = Some h' /\
    Heap.deleted h' = rev (clones <$> l) ++ Heap.deleted h /\
    forall c,
      Heap.load c h' =
      if decide (c ∈ clones <$> l) then None else Heap.load c h.
Proof.
  induction l as [|a l IH]; intros h Hnd Hall.
  - exists h. split; [done|]. split; [done|]. intros c.
    case_decide as Hin; [by apply elem_of_nil in Hin|done].
  - rewrite fmap_cons in Hnd. apply NoDup_cons in Hnd as [Hnotin Hnd].
    apply Forall_cons in Hall as [Ha Hall]. simpl.
    unfold Arrival.destroy at 1. rewrite Ha. simpl.
    change (wrap_int (1 - 1)) with 0. simpl.
    destruct (IH (Heap.delete_int (clones a)
                    (Heap.store (clones a) 0 h))) as (h' & E & Hd & Hl).
    + done.
    + apply Forall_forall. intros x Hx.
      pose proof (proj1 (Forall_forall _ _) Hall x Hx) as Hld.
      unfold Heap.load, Heap.delete_int, Heap.store in *. simpl.
      assert (clones x ≠ clones a).
      { intros Eq. apply Hnotin. rewrite <- Eq.
        by apply list_elem_of_fmap_2. }
      by rewrite lookup_delete_ne, lookup_insert_ne.
    + exists h'. split; [exact E|]. split.
      * rewrite Hd. simpl. by rewrite <- app_assoc.
      * intros c. rewrite Hl.
        unfold Heap.load, Heap.delete_int, Heap.store. simpl.
        destruct (decide (c ∈ clones <$> l)) as [Hin|Hnin].
        -- rewrite decide_True; [done|]. apply elem_of_cons. by right.
        -- destruct (decide (c = clones a)) as [->|Hne].
           ++ rewrite decide_True by (apply elem_of_cons; by left).
              by rewrite lookup_delete_eq.
           ++ rewrite decide_False
                by (intros [?|?]%elem_of_cons; done).
              by rewrite lookup_delete_ne, lookup_insert_ne.
Qed.

(** X16. When the base of a batch and each of its members is the only
    owner of its counter (the counters are pairwise different and hold
    1), the destructor of the batch succeeds, deletes every one of
    these counters exactly once - the members' in order, then the
    base's - and leaves every other cell of the heap as it was. *)
Theorem batched_destructor_frees_all (b : Batched.t) (h : Heap.t) :
  NoDup (clones <$> Batched.arrivals b ++ [Batched.arrival b]) ->
  Forall (λ a, Heap.load (clones a) h = Some 1)
         (Batched.arrivals b ++ [Batched.arrival b]) ->
  exists h',
    BatchedLife.destroy b h = Some h' /\
    Heap.deleted h' =
      clones (Batched.arrival b)
      :: rev (clones <$> Batched.arrivals b) ++ Heap.deleted h /\
    forall c,
      Heap.load c h' =
      if decide (c ∈ clones <$> Batched.arrivals b ++ [Batched.arrival b])
      then None else Heap.load c h.
Proof.
  intros Hnd Hall. rewrite destroy_batched_as_list.
  destruct (destroy_all_owners _ h Hnd Hall) as (h' & E & Hd & Hl).
  exists h'. split; [done|]. split; [|done].
  rewrite Hd, fmap_app, rev_app_distr. done.
Qed.

(** X16 on [batch_of_owners]. *)
Lemma batched_destructor_frees_all_witness :
  exists h',
    BatchedLife.destroy batch_of_owners.1 batch_of_owners.2 = Some h' /\
    Heap.deleted h' =
      clones (Batched.arrival batch_of_owners.1)
      :: rev (clones <$> Batched.arrivals batch_of_owners.1) ++
         Heap.deleted batch_of_owners.2 /\
    forall c,
      Heap.load c h' =
      if decide (c ∈ clones <$> Batched.arrivals batch_of_owners.1 ++
                              [Batched.arrival batch_of_owners.1])
      then None else Heap.load c batch_of_owners.2.
Proof.
  apply (batched_destructor_frees_all batch_of_owners.1 batch_of_owners.2).
  - refine (bool_decide_unpack _ _). vm_compute. exact I.
  - repeat constructor.
Defined.

(** The counters of [batch_of_owners] are at 1, 2 and 3; the members'
    are deleted first. *)
Example batch_of_owners_destroyed :
  BatchedLife.destroy batch_of_owners.1 batch_of_owners.2 =
  Some (Heap.mk ∅ [1%positive; 3%positive; 2%positive]).
Proof. by vm_compute. Qed.

Lemma occ_bounds l c : 0 <= occ l c <= Z.of_nat (length l).
Proof.
  induction l as [|a l IH]; simpl; [lia|].
  destruct (decide (clones a = c)); lia.
Qed.

Lemma lifted_refl h : lifted (λ _, 0) h h.
Proof.
  split; [done|]. intros c. destruct (Heap.cells h !! c); simpl; [|done].
  f_equal. lia.
Qed.

Lemma lifted_ext off off' h h' :
  (forall c, off c = off' c) -> lifted off h h' -> lifted off' h h'.
Proof. intros E [Hd Hc]. split; [done|]. intros c. by rewrite Hc, E. Qed.

Lemma lifted_zero h h' : lifted (λ _, 0) h h' -> h' = h.
Proof.
  destruct h as [m d], h' as [m' d']. intros [Hd Hc]. simpl in *.
  f_equal; [|done]. apply map_eq. intros c. rewrite Hc.
  destruct (m !! c); simpl; [|done]. f_equal. lia.
Qed.

Lemma lifted_store off h0 h c v k :
  lifted off h0 h -> Heap.load c h0 = Some v ->
  lifted (λ c', off c' + (if decide (c = c') then k else 0)) h0
    (Heap.store c (v + off c + k) h).
Proof.
  intros [Hd Hc] Hld. split; [done|]. intros c'.
  unfold Heap.store, Heap.load in *. simpl.
  destruct (decide (c = c')) as [<-|Hne].
  - rewrite lookup_insert_eq, Hld. simpl. f_equal. lia.
  - rewrite lookup_insert_ne, Hc by done.
    destruct (Heap.cells h0 !! c'); simpl; [|done]. f_equal. lia.
Qed.

(** The loop of the copy constructor raises every counter by the number
    of members that point to it, and returns the members as they
    were. *)
Lemma clone_members_lifts h0 l : forall off h,
  lifted off h0 h ->
  Forall (λ a, exists v, Heap.load (clones a) h0 = Some v /\ 1 <= v /\
                0 <= off (clones a) /\
                v + off (clones a) + occ l (clones a) <= Order.INT_MAX) l ->
  exists h',
    clone_members l h = Some (l, h') /\
    lifted (λ c, off c + occ l c) h0 h'.
Proof.
  induction l as [|a l IH]; intros off h Hl Hall.
  - exists h. split; [done|]. eapply lifted_ext; [|exact Hl].
    intros c. simpl. lia.
  - pose proof Hall as Hall'.
    apply Forall_cons in Hall as [(v & Hv & Hv1 & Hoff & Hmax) Hall].
    simpl in Hmax. rewrite decide_True in Hmax by done.
    pose proof (occ_bounds l (clones a)) as Hocc.
    simpl. unfold clone at 1. unfold Heap.load at 1.
    rewrite (proj2 Hl). unfold Heap.load in Hv. rewrite Hv. simpl.
    rewrite CloneFacts.wrap_int_id
      by (unfold Order.is_int, Order.INT_MIN, Order.INT_MAX in *; lia).
    destruct (IH (λ c', off c' + (if decide (clones a = c') then 1 else 0))
                 (Heap.store (clones a) (v + off (clones a) + 1) h))
      as (h' & E & Hl').
    + by apply lifted_store.
    + apply Forall_cons in Hall' as [_ Hall'].
      eapply Forall_impl; [exact Hall'|]. simpl.
      intros x (w & Hw & Hw1 & Hoffx & Hmaxx). exists w.
      repeat split; try done; destruct (decide (clones a = clones x)); lia.
    + exists h'. rewrite E. simpl. split; [done|].
      eapply lifted_ext; [|exact Hl']. intros c. simpl.
      destruct (decide (clones a = c)); lia.
Qed.

(** Destroying arrivals whose counters stay above zero lowers every
    counter by the number of arrivals that point to it. *)
Lemma destroy_all_lowers h0 l : forall off h,
  lifted off h0 h ->
  Forall (λ a, exists v, Heap.load (clones a) h0 = Some v /\ 1 <= v /\
                occ l (clones a) <= off (clones a) /\
                v + off (clones a) <= Order.INT_MAX) l ->
  exists h',
    destroy_all l h = Some h' /\
    lifted (λ c, off c - occ l c) h0 h'.
Proof.
  induction l as [|a l IH]; intros off h Hl Hall.
  - exists h. split; [done|]. eapply lifted_ext; [|exact Hl].
    intros c. simpl. lia.
  - pose proof Hall as Hall'.
    apply Forall_cons in Hall as [(v & Hv & Hv1 & Hoff & Hmax) Hall].
    simpl in Hoff. rewrite decide_True in Hoff by done.
    pose proof (occ_bounds l (clones a)) as Hocc.
    simpl. unfold Arrival.destroy at 1. unfold Heap.load at 1.
    rewrite (proj2 Hl). unfold Heap.load in Hv. rewrite Hv. simpl.
    rewrite CloneFacts.wrap_int_id
      by (unfold Order.is_int, Order.INT_MIN, Order.INT_MAX in *; lia).
    destruct (Z.eqb_spec (v + off (clones a) - 1) 0) as [E0|_]; [lia|].
    replace (v + off (clones a) - 1) with (v + off (clones a) + -1) by lia.
    destruct (IH (λ c', off c' + (if decide (clones a = c') then -1 else 0))
                 (Heap.store (clones a) (v + off (clones a) + -1) h))
      as (h' & E & Hl').
    + by apply lifted_store.
    + apply Forall_cons in Hall' as [_ Hall'].
      eapply Forall_impl; [exact Hall'|]. simpl.
      intros x (w & Hw & Hw1 & Hoffx & Hmaxx). exists w.
      repeat split; try done; destruct (decide (clones a = clones x)); lia.
    + exists h'. rewrite E. split; [done|].
      eapply lifted_ext; [|exact Hl']. intros c. simpl.
      destruct (decide (clones a = c)); lia.
Qed.

(** X17. Copy-constructing a batch clones every member, so every
    member's counter grows, while the base is copied with its pointer
    and its counter is left alone; the copy is equal to the original.
    Destroying the copy gives the members' counters back their values
    and counts the base's counter down once: the heap is then exactly
    what destroying the base alone would have made of the heap before
    the copy. *)
Theorem batched_copy_then_destroy (o : Batched.t) (h : Heap.t) :
  Forall (λ a, exists v, Heap.load (clones a) h = Some v /\ 1 <= v /\
                v + Z.of_nat (length (Batched.arrivals o)) <= Order.INT_MAX)
         (Batched.arrivals o) ->
  exists h1,
    Batched_copy o h = Some (o, h1) /\
    Heap.deleted h1 = Heap.deleted h /\
    (forall c, Heap.load c h1 =
               (λ v, v + occ (Batched.arrivals o) c) <$> Heap.load c h) /\
    Forall (λ a, 1 <= occ (Batched.arrivals o) (clones a))
           (Batched.arrivals o) /\
    (clones (Batched.arrival o) ∉ clones <$> Batched.arrivals o ->
     Heap.load (clones (Batched.arrival o)) h1 =
     Heap.load (clones (Batched.arrival o)) h) /\
    BatchedLife.destroy o h1 = Arrival.destroy (Batched.arrival o) h.
Proof.
  intros Hall. set (l := Batched.arrivals o) in *.
  destruct (clone_members_lifts h l (λ _, 0) h (lifted_refl h))
    as (h1 & E & Hl).
  { eapply Forall_impl; [exact Hall|]. simpl.
    intros x (v & Hv & Hv1 & Hmax). exists v.
    pose proof (occ_bounds l (clones x)). repeat split; try done; lia. }
  assert (Hocc : forall a, a ∈ l -> 1 <= occ l (clones a)).
  { clear. induction l as [|b l IH]; intros a Ha; [by apply elem_of_nil in Ha|].
    simpl. pose proof (occ_bounds l (clones a)).
    apply elem_of_cons in Ha as [->|Ha].
    - rewrite decide_True by done. lia.
    - specialize (IH a Ha). destruct (decide _); lia. }
  assert (Hnone : forall c, c ∉ clones <$> l -> occ l c = 0).
  { clear. induction l as [|b l IH]; intros c Hc; [done|]. simpl.
    rewrite fmap_cons in Hc. apply not_elem_of_cons in Hc as [Hne Hc].
    rewrite decide_False by done. rewrite IH by done. lia. }
  exists h1. split.
  { unfold Batched_copy. fold l. rewrite E. simpl. by destruct o. }
  split; [exact (proj1 Hl)|].
  split.
  { intros c. unfold Heap.load. rewrite (proj2 Hl).
    destruct (Heap.cells h !! c); simpl; [|done]. first [done | f_equal; lia]. }
  split; [by apply Forall_forall|].
  split.
  { intros Hb. unfold Heap.load. rewrite (proj2 Hl), (Hnone _ Hb).
    destruct (Heap.cells h !! _); simpl; [|done]. first [done | f_equal; lia]. }
  unfold BatchedLife.destroy. fold l.
  destruct (destroy_all_lowers h l (λ c, 0 + occ l c) h1 Hl) as (h2 & E2 & Hl2).
  { eapply Forall_impl; [exact Hall|]. simpl.
    intros x (v & Hv & Hv1 & Hmax). exists v.
    pose proof (occ_bounds l (clones x)). repeat split; try done; lia. }
  rewrite E2. simpl. f_equal. apply lifted_zero.
  eapply lifted_ext; [|exact Hl2]. intros c. simpl. lia.
Qed.

(** X17 on [batch_of_owners]. *)
Lemma batched_copy_then_destroy_witness :
  exists h1,
    Batched_copy batch_of_owners.1 batch_of_owners.2 =
      Some (batch_of_owners.1, h1) /\
    Heap.deleted h1 = Heap.deleted batch_of_owners.2 /\
    (forall c, Heap.load c h1 =
               (λ v, v + occ (Batched.arrivals batch_of_owners.1) c) <$>
               Heap.load c batch_of_owners.2) /\
    Forall (λ a, 1 <= occ (Batched.arrivals batch_of_owners.1) (clones a))
           (Batched.arrivals batch_of_owners.1) /\
    (clones (Batched.arrival batch_of_owners.1)
       ∉ clones <$> Batched.arrivals batch_of_owners.1 ->
     Heap.load (clones (Batched.arrival batch_of_owners.1)) h1 =
     Heap.load (clones (Batched.arrival batch_of_owners.1))
       batch_of_owners.2) /\
    BatchedLife.destroy batch_of_owners.1 h1 =
    Arrival.destroy (Batched.arrival batch_of_owners.1) batch_of_owners.2.
Proof.
  apply (batched_copy_then_destroy batch_of_owners.1 batch_of_owners.2).
  repeat constructor; exists 1; (split; [reflexivity|]);
    (split; [lia|]); by vm_compute.
Defined.

(** In the copy of [batch_of_owners] the members' counters are at 2;
    destroying the copy puts them back to 1 and deletes the base's
    counter, which the original still points to. *)
Example batch_of_owners_copied :
  (Batched_copy batch_of_owners.1 batch_of_owners.2 ≫=
   λ r, BatchedLife.destroy r.1 r.2) =
  Some (Heap.mk {[2%positive := 1; 3%positive := 1]} [1%positive]).
Proof. by vm_compute. Qed.

End BatchedLifeLaws.
